(** * Host-port exposure through the SSHD bridge container

    A model of [port_forwarding.go]: the per-connection relay
    ([runTunnel]), the per-port forwarder ([PortForwarder.Forward] and
    [PortForwarder.Close]), the bridge controller ([sshdContainer] with
    [exposeHostPort] and [Terminate]) and the orchestrator entry point
    ([exposeHostPorts], [newSshdContainer], [configureSSHConfig]).

    Goroutines are modelled by program counters that name the source line
    about to run; a step function executes one statement of one goroutine
    under an action that also carries the answer of the outside world
    (the result of a dial, of an accept, of a close).  A run is a list of
    actions, so a property proved for every run holds for every
    interleaving and every behaviour of the network. *)

From Stdlib Require Import ZArith String List Bool Lia.
From stdpp Require Import base option list strings pretty gmap.

Local Open Scope string_scope.
Local Open Scope list_scope.
Set Warnings "-register-all".

(* ===================================================================== *)
(** * Part I: definitions *)
(* ===================================================================== *)

(** ** Go values shared by all components *)

(** Error values.  [fmt.Errorf("msg: %w", e)] wraps one cause,
    [errors.Join] wraps the non-nil errors it is given. *)
Inductive err : Type :=
| ErrNew (msg : string)
| ErrWrap (msg : string) (cause : err)
| ErrJoin (errs : list err).

(** The Go interface value [error]: [None] is [nil]. *)
Definition error : Type := option err.

(** [errors.Join(errs...)]: nil values are discarded; nil when nothing is left. *)
Definition errors_Join (errs : list error) : error :=
  match omap id errs with
  | [] => None
  | es => Some (ErrJoin es)
  end.

(** The errors a value stands for: a joined error stands for the errors it
    wraps (Go's [Unwrap() []error]), any other error for itself. *)
Fixpoint leaves (e : err) : list err :=
  match e with
  | ErrJoin es => flat_map leaves es
  | _ => [e]
  end.

Definition reported (e : error) : list err :=
  match e with
  | None => []
  | Some e => leaves e
  end.

(** What one statement does to the process: it runs and yields a new state,
    it panics (a panic in any goroutine ends the whole process), or it
    cannot run now (blocked, or not the statement this goroutine is at). *)
Inductive outcome (A : Type) : Type :=
| Next (a : A)
| Panic (msg : string)
| Stuck.
Arguments Next {A} a.
Arguments Panic {A} msg.
Arguments Stuck {A}.

(** A connection-like resource: [net.Conn], [*ssh.Client], [net.Listener]. *)
Inductive conn : Type := NoConn | Open | Closed.

(** A channel that is only ever closed ([terminateChan]) or used for a
    rendezvous ([connectionCreated], unbuffered): its state is whether
    [close] ran. *)
Inductive chan : Type := ChOpen | ChClosed.

Definition is_closed (c : chan) : bool :=
  match c with ChClosed => true | ChOpen => false end.

(** [close(c)]: closing a closed channel panics. *)
Definition close (c : chan) : outcome chan :=
  match c with
  | ChOpen => Next ChClosed
  | ChClosed => Panic "close of closed channel"
  end.

(* --------------------------------------------------------------------- *)
(** ** The relay of one accepted connection: [PortForwarder.runTunnel] *)
(* --------------------------------------------------------------------- *)

Module Tunnel.

(** Where [runTunnel] is. *)
Inductive rt_pc : Type :=
| RtDial          (* line 314: dialer.DialContext(ctx, "tcp", localhost:localPort) *)
| RtCloseRemote   (* line 316: the dial failed, remote.Close() *)
| RtGoIn          (* line 324: go func() { io.Copy(local, remote); done <- ... } *)
| RtGoOut         (* line 329: go func() { io.Copy(remote, local); done <- ... } *)
| RtWaitDone      (* line 334: <-done *)
| RtDeferRemote   (* deferred remote.Close(), registered last, run first *)
| RtDeferLocal    (* deferred local.Close() *)
| RtReturned.

(** Where one of the two copying goroutines is. *)
Inductive copy_pc : Type :=
| CpIdle          (* not spawned yet *)
| CpCopy          (* inside io.Copy *)
| CpSignal        (* io.Copy returned, about to run done <- struct{}{} *)
| CpExit.

Inductive direction : Type := In_ | Out_.

Record tunnel : Type := mkTunnel {
  pc : rt_pc;
  copy_in : copy_pc;     (* io.Copy(local, remote) *)
  copy_out : copy_pc;    (* io.Copy(remote, local) *)
  done : nat;            (* make(chan struct{}, 2): number of queued values *)
  remote : conn;
  local : conn
}.

(** The state in which [go pf.runTunnel(ctx, remote)] starts. *)
Definition accepted : tunnel :=
  mkTunnel RtDial CpIdle CpIdle 0 Open NoConn.

Inductive taction : Type :=
| TDialLocal (r : error)               (* the dial returns r *)
| TRun                                 (* runTunnel runs its next statement *)
| TCopyEnds (d : direction) (r : error) (* io.Copy of direction d returns (EOF: nil) *)
| TSignal (d : direction).             (* the goroutine of direction d sends on done *)

Definition set_pc (p : rt_pc) (t : tunnel) : tunnel :=
  mkTunnel p (copy_in t) (copy_out t) (done t) (remote t) (local t).
Definition set_copy (d : direction) (c : copy_pc) (t : tunnel) : tunnel :=
  match d with
  | In_ => mkTunnel (pc t) c (copy_out t) (done t) (remote t) (local t)
  | Out_ => mkTunnel (pc t) (copy_in t) c (done t) (remote t) (local t)
  end.
Definition get_copy (d : direction) (t : tunnel) : copy_pc :=
  match d with In_ => copy_in t | Out_ => copy_out t end.
Definition set_done (n : nat) (t : tunnel) : tunnel :=
  mkTunnel (pc t) (copy_in t) (copy_out t) n (remote t) (local t).
Definition set_remote (c : conn) (t : tunnel) : tunnel :=
  mkTunnel (pc t) (copy_in t) (copy_out t) (done t) c (local t).
Definition set_local (c : conn) (t : tunnel) : tunnel :=
  mkTunnel (pc t) (copy_in t) (copy_out t) (done t) (remote t) c.

(** One statement of [runTunnel] or of one of its two goroutines.  The
    function has no result value and no channel to its caller; the errors of
    [io.Copy] and of the two [Close] calls are dropped. *)
Definition runTunnel_step (t : tunnel) (a : taction) : option tunnel :=
  match a, pc t with
  | TDialLocal (Some _), RtDial => Some (set_pc RtCloseRemote t)
  | TDialLocal None, RtDial => Some (set_pc RtGoIn (set_local Open t))
  | TRun, RtCloseRemote => Some (set_pc RtReturned (set_remote Closed t))
  | TRun, RtGoIn => Some (set_pc RtGoOut (set_copy In_ CpCopy t))
  | TRun, RtGoOut => Some (set_pc RtWaitDone (set_copy Out_ CpCopy t))
  | TRun, RtWaitDone =>
      match done t with
      | O => None
      | S n => Some (set_pc RtDeferRemote (set_done n t))
      end
  | TRun, RtDeferRemote => Some (set_pc RtDeferLocal (set_remote Closed t))
  | TRun, RtDeferLocal => Some (set_pc RtReturned (set_local Closed t))
  | TCopyEnds d _, _ =>
      match get_copy d t with
      | CpCopy => Some (set_copy d CpSignal t)
      | _ => None
      end
  | TSignal d, _ =>
      match get_copy d t with
      | CpSignal => if Nat.ltb (done t) 2 then Some (set_copy d CpExit (set_done (S (done t)) t)) else None
      | _ => None
      end
  | _, _ => None
  end.

Fixpoint run (t : tunnel) (acts : list taction) : option tunnel :=
  match acts with
  | [] => Some t
  | a :: rest =>
      match runTunnel_step t a with
      | Some t' => run t' rest
      | None => None
      end
  end.

(** A copying goroutine has finished its [io.Copy]. *)
Definition finished (c : copy_pc) : bool :=
  match c with CpSignal | CpExit => true | _ => false end.

End Tunnel.

(* --------------------------------------------------------------------- *)
(** ** The tunnel session: [ssh.ClientConfig] as [configureSSHConfig] fills it *)
(* --------------------------------------------------------------------- *)

Inductive AuthMethod : Type := Password (secret : string).
Inductive HostKeyCallback : Type := InsecureIgnoreHostKey.

Record ClientConfig : Type := mkClientConfig {
  User : string;
  HostKeyCallback_ : HostKeyCallback;
  Auth : list AuthMethod;
  Timeout : Z                     (* seconds *)
}.

(* --------------------------------------------------------------------- *)
(** ** One forwarded port: [PortForwarder], [Forward] and [Close] *)
(* --------------------------------------------------------------------- *)

Module Forwarder.

(** The plain fields of the Go struct. *)
Record PortForwarder : Type := mkPortForwarder {
  sshDAddr : string;
  sshConfig : option ClientConfig;
  remotePort : Z;
  localPort : Z
}.

(** Where the goroutine running [Forward] is. *)
Inductive forward_pc : Type :=
| FDial                        (* line 259: ssh.Dial *)
| FSendDialErr (e : err)       (* line 262: pf.connectionCreated <- err *)
| FListen                      (* line 267: client.Listen, defer client.Close() is registered *)
| FSendListenErr (e : err)     (* line 270: pf.connectionCreated <- err *)
| FSendOk                      (* line 276: pf.connectionCreated <- nil, both defers registered *)
| FSelect                      (* line 279: select with default *)
| FCloseListener               (* lines 281 and 289: listener.Close() *)
| FCloseClient                 (* lines 284 and 292: client.Close() *)
| FAccept                      (* line 300: listener.Accept() in the for loop *)
| FDeferListener (ret : error) (* returning ret: deferred listener.Close() *)
| FDeferClient (ret : error)   (* returning ret: deferred client.Close() *)
| FReturned (ret : error).

(** A forwarder at run time: the struct, the two channels its copies share,
    the goroutine started by [go pw.Forward(ctx)] and what that goroutine
    owns.  [delivered] lists the values handed to a receiver on
    [connectionCreated], oldest first. *)
Record forwarder : Type := mkForwarder {
  pf : PortForwarder;
  connectionCreated : chan;
  terminateChan : chan;
  fpc : forward_pc;
  delivered : list error;
  client : conn;
  listener : conn;
  tunnels : list Tunnel.tunnel
}.

(** [NewPortForwarder], with the goroutine about to enter [Forward]. *)
Definition NewPortForwarder (addr : string) (cfg : option ClientConfig)
    (rport lport : Z) : forwarder :=
  mkForwarder (mkPortForwarder addr cfg rport lport) ChOpen ChOpen FDial [] NoConn NoConn [].

Inductive select_case : Type := CaseCtxDone | CaseTerminate | CaseDefault.

Inductive faction : Type :=
| ADial (r : error)            (* ssh.Dial returns r *)
| AListen (r : error)          (* client.Listen returns r *)
| ASend                        (* the pending send on connectionCreated runs; unless the
                                  channel is closed, a receiver takes the value *)
| ASelect (c : select_case)    (* the select picks case c *)
| ACloseListener (r : error)   (* listener.Close() returns r *)
| ACloseClient (r : error)     (* client.Close() returns r *)
| AAccept (r : error)          (* listener.Accept() returns a connection (nil) or r *)
| ATunnel (k : nat) (a : Tunnel.taction)  (* the k-th relay of this forwarder moves *)
| ACloseTerminate              (* line 254, run by the caller of Close *)
| ACloseCreated.               (* line 255, run by the caller of Close *)

Definition set_fpc (p : forward_pc) (f : forwarder) : forwarder :=
  mkForwarder (pf f) (connectionCreated f) (terminateChan f) p (delivered f)
    (client f) (listener f) (tunnels f).
Definition set_connectionCreated (c : chan) (f : forwarder) : forwarder :=
  mkForwarder (pf f) c (terminateChan f) (fpc f) (delivered f)
    (client f) (listener f) (tunnels f).
Definition set_terminateChan (c : chan) (f : forwarder) : forwarder :=
  mkForwarder (pf f) (connectionCreated f) c (fpc f) (delivered f)
    (client f) (listener f) (tunnels f).
Definition set_delivered (d : list error) (f : forwarder) : forwarder :=
  mkForwarder (pf f) (connectionCreated f) (terminateChan f) (fpc f) d
    (client f) (listener f) (tunnels f).
Definition set_client (c : conn) (f : forwarder) : forwarder :=
  mkForwarder (pf f) (connectionCreated f) (terminateChan f) (fpc f) (delivered f)
    c (listener f) (tunnels f).
Definition set_listener (c : conn) (f : forwarder) : forwarder :=
  mkForwarder (pf f) (connectionCreated f) (terminateChan f) (fpc f) (delivered f)
    (client f) c (tunnels f).
Definition set_tunnels (ts : list Tunnel.tunnel) (f : forwarder) : forwarder :=
  mkForwarder (pf f) (connectionCreated f) (terminateChan f) (fpc f) (delivered f)
    (client f) (listener f) ts.

(** [pf.connectionCreated <- v] and then continue at [p]: on a closed channel
    the send panics; otherwise the value goes to the receiver. *)
Definition send (v : error) (p : forward_pc) (f : forwarder) : outcome forwarder :=
  match connectionCreated f with
  | ChClosed => Panic "send on closed channel"
  | ChOpen => Next (set_fpc p (set_delivered (delivered f ++ [v]) f))
  end.

(** The value a blocked send is offering, if the goroutine is at a send. *)
Definition sending (f : forwarder) : option error :=
  match fpc f with
  | FSendDialErr e | FSendListenErr e => Some (Some e)
  | FSendOk => Some None
  | _ => None
  end.

(** One statement of [Forward] (or of one of its relays, or of [Close] run
    by another goroutine on this forwarder). [ctx_done] says whether
    [ctx.Done()] is closed at that moment. *)
Definition Forward_step (ctx_done : bool) (f : forwarder) (a : faction)
    : outcome forwarder :=
  match a, fpc f with
  | ADial (Some e), FDial =>
      Next (set_fpc (FSendDialErr (ErrWrap "error dialing ssh server" e)) f)
  | ADial None, FDial => Next (set_fpc FListen (set_client Open f))
  | AListen (Some e), FListen =>
      Next (set_fpc (FSendListenErr (ErrWrap "error listening on remote port" e)) f)
  | AListen None, FListen => Next (set_fpc FSendOk (set_listener Open f))
  | ASend, FSendDialErr e => send (Some e) (FReturned (Some e)) f
  | ASend, FSendListenErr e => send (Some e) (FDeferClient (Some e)) f
  | ASend, FSendOk => send None FSelect f
  | ASelect CaseCtxDone, FSelect =>
      if ctx_done then Next (set_fpc FCloseListener f) else Stuck
  | ASelect CaseTerminate, FSelect =>
      if is_closed (terminateChan f) then Next (set_fpc FCloseListener f) else Stuck
  | ASelect CaseDefault, FSelect =>
      if ctx_done || is_closed (terminateChan f) then Stuck
      else Next (set_fpc FAccept f)
  | ACloseListener (Some e), FCloseListener =>
      Next (set_fpc (FDeferListener (Some (ErrWrap "error closing listener" e)))
              (set_listener Closed f))
  | ACloseListener None, FCloseListener =>
      Next (set_fpc FCloseClient (set_listener Closed f))
  | ACloseClient (Some e), FCloseClient =>
      Next (set_fpc (FDeferListener (Some (ErrWrap "error closing client" e)))
              (set_client Closed f))
  | ACloseClient None, FCloseClient =>
      Next (set_fpc (FDeferListener None) (set_client Closed f))
  | AAccept (Some e), FAccept =>
      Next (set_fpc (FDeferListener (Some (ErrWrap "error accepting connection" e))) f)
  | AAccept None, FAccept =>
      Next (set_tunnels (tunnels f ++ [Tunnel.accepted]) f)
  | ACloseListener _, FDeferListener ret =>
      Next (set_fpc (FDeferClient ret) (set_listener Closed f))
  | ACloseClient _, FDeferClient ret =>
      Next (set_fpc (FReturned ret) (set_client Closed f))
  | ATunnel k ta, _ =>
      match tunnels f !! k with
      | Some t =>
          match Tunnel.runTunnel_step t ta with
          | Some t' => Next (set_tunnels (<[k := t']> (tunnels f)) f)
          | None => Stuck
          end
      | None => Stuck
      end
  | ACloseTerminate, _ =>
      match close (terminateChan f) with
      | Next c => Next (set_terminateChan c f)
      | Panic m => Panic m
      | Stuck => Stuck
      end
  | ACloseCreated, _ =>
      match close (connectionCreated f) with
      | Next c => Next (set_connectionCreated c f)
      | Panic m => Panic m
      | Stuck => Stuck
      end
  | _, _ => Stuck
  end.

(** A forwarder together with the context its [Forward] was given. *)
Record process : Type := mkProcess {
  ctx_done : bool;
  fwd : forwarder
}.

Inductive paction : Type :=
| PCancel                 (* the context is cancelled *)
| PStep (a : faction).

Definition process_step (s : process) (a : paction) : outcome process :=
  match a with
  | PCancel => Next (mkProcess true (fwd s))
  | PStep a =>
      match Forward_step (ctx_done s) (fwd s) a with
      | Next f => Next (mkProcess (ctx_done s) f)
      | Panic m => Panic m
      | Stuck => Stuck
      end
  end.

Fixpoint run (s : process) (acts : list paction) : outcome process :=
  match acts with
  | [] => Next s
  | a :: rest =>
      match process_step s a with
      | Next s' => run s' rest
      | Panic m => Panic m
      | Stuck => Stuck
      end
  end.

(** A fresh forwarder whose [Forward] has just been started. *)
Definition start (addr : string) (cfg : option ClientConfig) (rport lport : Z) : process :=
  mkProcess false (NewPortForwarder addr cfg rport lport).

(** [Forward] is past its bind phase: the one send is behind it. *)
Definition past_bind (p : forward_pc) : bool :=
  match p with
  | FDial | FSendDialErr _ | FListen | FSendListenErr _ | FSendOk => false
  | _ => true
  end.


End Forwarder.

(* --------------------------------------------------------------------- *)
(** ** The bridge controller: [sshdContainer], [exposeHostPort], [Terminate] *)
(* --------------------------------------------------------------------- *)

(** The handle of a container made by the lifecycle manager. *)
Record DockerContainer : Type := mkDockerContainer { ID : string }.

Module Bridge.
Import Forwarder.

Record sshdContainer : Type := mkSshd {
  container : DockerContainer;
  port : string;
  sshConfig : option ClientConfig;
  portForwarders : list forwarder
}.

(** Where the goroutine that calls the controller's methods is. *)
Inductive ctl_pc : Type :=
| Idle
| ExposeLoop (todo : list Z)        (* line 216: ports still to set up *)
| ExposeWait (i : nat) (e : error)  (* line 227: next receive is from portForwarders[i] *)
| ExposeReturned (e : error)        (* line 230 *)
| TerminateLoop (i : nat) (half : bool)
                                    (* line 192, inside pfw.Close for portForwarders[i]:
                                       line 254 is next, or (half) line 255 *)
| TerminateContainer                (* line 195: sshdC.DockerContainer.Terminate(ctx) *)
| TerminateReturned (r : error).

Inductive event : Type :=
| EvClosed (i : nat)                (* pfw.Close returned for portForwarders[i] *)
| EvContainerTerminate (r : error). (* DockerContainer.Terminate was invoked and gave r *)

(** The controller, the context its methods were called with, the calling
    goroutine, and four records that no statement reads, kept for the
    statements of the properties: the length of the collection when the
    current [exposeHostPort] call began, the ports that call was given, the
    values it has received so far, and the order of closes and container
    termination. *)
Record system : Type := mkSystem {
  sshd : sshdContainer;
  ctx_done : bool;
  ctl : ctl_pc;
  base : nat;
  requested : list Z;
  received : list error;
  trace : list event
}.

Inductive saction : Type :=
| Call_exposeHostPort (ports : list Z)
| Call_Terminate
| Ctl (r : error)              (* the caller runs its next statement; r is the answer of
                                  DockerContainer.Terminate when that is the statement *)
| Go (i : nat) (a : faction)   (* the Forward goroutine of portForwarders[i], or a relay of it *)
| Cancel.

Definition pfs (s : system) : list forwarder := portForwarders (sshd s).

Definition set_pfs (l : list forwarder) (s : system) : system :=
  mkSystem (mkSshd (container (sshd s)) (port (sshd s)) (sshConfig (sshd s)) l)
    (ctx_done s) (ctl s) (base s) (requested s) (received s) (trace s).
Definition set_ctl (p : ctl_pc) (s : system) : system :=
  mkSystem (sshd s) (ctx_done s) p (base s) (requested s) (received s) (trace s).
Definition set_call (n : nat) (ports : list Z) (s : system) : system :=
  mkSystem (sshd s) (ctx_done s) (ctl s) n ports [] (trace s).
Definition set_received (l : list error) (s : system) : system :=
  mkSystem (sshd s) (ctx_done s) (ctl s) (base s) (requested s) l (trace s).
Definition set_trace (l : list event) (s : system) : system :=
  mkSystem (sshd s) (ctx_done s) (ctl s) (base s) (requested s) (received s) l.
Definition set_ctx_done (b : bool) (s : system) : system :=
  mkSystem (sshd s) b (ctl s) (base s) (requested s) (received s) (trace s).

(** No call is in progress: the calling goroutine may start one. *)
Definition callable (p : ctl_pc) : bool :=
  match p with
  | Idle | ExposeReturned _ | TerminateReturned _ => true
  | _ => false
  end.

(** Line 217-220: a forwarder with equal remote and local port, appended to
    the collection, its [Forward] started. *)
Definition spawn (s : system) (p : Z) : system :=
  set_pfs (pfs s ++ [NewPortForwarder ("localhost:" +:+ port (sshd s)) (sshConfig (sshd s)) p p]) s.

(** [<-pfw.connectionCreated] for [portForwarders[i]]: a closed channel gives
    nil at once; an open one gives the value of a sender that is at its
    send, and lets that sender go on; otherwise the receive blocks. *)
Definition receive (ctx : bool) (f : forwarder) : outcome (error * forwarder) :=
  match connectionCreated f with
  | ChClosed => Next (None, f)
  | ChOpen =>
      match sending f with
      | Some v =>
          match Forward_step ctx f ASend with
          | Next f' => Next (v, f')
          | Panic m => Panic m
          | Stuck => Stuck
          end
      | None => Stuck
      end
  end.

(** One statement of [exposeHostPort] or [Terminate]. *)
Definition ctl_step (s : system) (r : error) : outcome system :=
  match ctl s with
  | ExposeLoop (p :: todo) => Next (set_ctl (ExposeLoop todo) (spawn s p))
  | ExposeLoop [] => Next (set_ctl (ExposeWait 0 None) s)
  | ExposeWait i e =>
      match pfs s !! i with
      | None => Next (set_ctl (ExposeReturned e) s)
      | Some f =>
          match receive (ctx_done s) f with
          | Next (v, f') =>
              Next (set_ctl (ExposeWait (S i) (errors_Join [e; v]))
                      (set_received (received s ++ [v])
                         (set_pfs (<[i := f']> (pfs s)) s)))
          | Panic m => Panic m
          | Stuck => Stuck
          end
      end
  | TerminateLoop i half =>
      match pfs s !! i with
      | None => Next (set_ctl TerminateContainer s)
      | Some f =>
          match Forward_step (ctx_done s) f
                  (if half then ACloseCreated else ACloseTerminate) with
          | Next f' =>
              Next (if half
                    then set_ctl (TerminateLoop (S i) false)
                           (set_trace (trace s ++ [EvClosed i])
                              (set_pfs (<[i := f']> (pfs s)) s))
                    else set_ctl (TerminateLoop i true)
                           (set_pfs (<[i := f']> (pfs s)) s))
          | Panic m => Panic m
          | Stuck => Stuck
          end
      end
  | TerminateContainer =>
      Next (set_ctl (TerminateReturned r)
              (set_trace (trace s ++ [EvContainerTerminate r]) s))
  | _ => Stuck
  end.

(** A statement of the goroutine of [portForwarders[i]].  Its send needs
    the controller as receiver (see [receive]) unless the channel is
    closed, and the two statements of [Close] belong to the controller. *)
Definition go_step (s : system) (i : nat) (a : faction) : outcome system :=
  match pfs s !! i with
  | None => Stuck
  | Some f =>
      let run_it :=
        match Forward_step (ctx_done s) f a with
        | Next f' => Next (set_pfs (<[i := f']> (pfs s)) s)
        | Panic m => Panic m
        | Stuck => Stuck
        end in
      match a with
      | ACloseTerminate | ACloseCreated => Stuck
      | ASend => if is_closed (connectionCreated f) then run_it else Stuck
      | _ => run_it
      end
  end.

Definition step (s : system) (a : saction) : outcome system :=
  match a with
  | Call_exposeHostPort ports =>
      if callable (ctl s)
      then Next (set_ctl (ExposeLoop ports) (set_call (length (pfs s)) ports s))
      else Stuck
  | Call_Terminate =>
      if callable (ctl s) then Next (set_ctl (TerminateLoop 0 false) s) else Stuck
  | Ctl r => ctl_step s r
  | Go i a => go_step s i a
  | Cancel => Next (set_ctx_done true s)
  end.

Fixpoint run (s : system) (acts : list saction) : outcome system :=
  match acts with
  | [] => Next s
  | a :: rest =>
      match step s a with
      | Next s' => run s' rest
      | Panic m => Panic m
      | Stuck => Stuck
      end
  end.

(** The controller as [newSshdContainer] returns it. *)
Definition fresh (c : DockerContainer) (p : string) (cfg : option ClientConfig) : system :=
  mkSystem (mkSshd c p cfg []) false Idle 0 [] [] [].

(** [err = errors.Join(err, v)] folded over the received values, from nil. *)
Definition join_all (vs : list error) : error :=
  fold_left (fun e v => errors_Join [e; v]) vs None.

(** Both channels of a forwarder are open / closed. *)
Definition both_open (f : forwarder) : Prop :=
  connectionCreated f = ChOpen /\ terminateChan f = ChOpen.
Definition both_closed (f : forwarder) : Prop :=
  connectionCreated f = ChClosed /\ terminateChan f = ChClosed.

End Bridge.

(* --------------------------------------------------------------------- *)
(** ** The orchestrator: [exposeHostPorts], [newSshdContainer], [configureSSHConfig] *)
(* --------------------------------------------------------------------- *)

Module Orchestrator.

Definition sshdImage : string := "testcontainers/sshd:1.2.0".
Definition HostInternal : string := "host.testcontainers.internal".
Definition user : string := "root".
Definition sshPort : string := "22".

(** A Go call returning [(value, error)] with exactly one of them set. *)
Inductive result (A : Type) : Type :=
| Ok (a : A)
| Err (e : err).
Arguments Ok {A} a.
Arguments Err {A} e.

Record HostConfig : Type := mkHostConfig {
  ExtraHosts : list string;
  NetworkMode : string
}.

(** A function on a pointer to [container.HostConfig]: the closure installed at line 102 also
    appends to [req.Networks] of the request it captured, so a modifier takes
    and gives back that list too. *)
Definition HostConfigModifier_t : Type :=
  HostConfig -> list string -> HostConfig * list string.

(** The fields of [Request] that this file reads or writes.  A nil map or nil
    function is [None]. *)
Record Request : Type := mkRequest {
  Image : string;
  HostAccessPorts : list Z;
  ExposedPorts : list string;
  Env : gmap string string;
  Started : bool;
  Networks : list string;
  NetworkAliases : option (gmap string (list string));
  HostConfigModifier : option HostConfigModifier_t
}.

Definition set_Networks (l : list string) (r : Request) : Request :=
  mkRequest (Image r) (HostAccessPorts r) (ExposedPorts r) (Env r) (Started r)
    l (NetworkAliases r) (HostConfigModifier r).
Definition set_NetworkAliases (m : option (gmap string (list string))) (r : Request) : Request :=
  mkRequest (Image r) (HostAccessPorts r) (ExposedPorts r) (Env r) (Started r)
    (Networks r) m (HostConfigModifier r).
Definition set_HostConfigModifier (f : option HostConfigModifier_t) (r : Request) : Request :=
  mkRequest (Image r) (HostAccessPorts r) (ExposedPorts r) (Env r) (Started r)
    (Networks r) (NetworkAliases r) f.
Definition set_HostAccessPorts (l : list Z) (r : Request) : Request :=
  mkRequest (Image r) l (ExposedPorts r) (Env r) (Started r)
    (Networks r) (NetworkAliases r) (HostConfigModifier r).

(** [opt.Customize(&req)]. *)
Definition RequestCustomizer : Type := Request -> result Request.

Record DockerNetwork : Type := mkDockerNetwork { Name : string; NetworkID : string }.

(** The two closures of lines 128 and 133.  Each captures the controller
    made by this call of [exposeHostPorts] (here: its index among the
    bridges of the process); the first also captures the pointer [req] and
    reads through it when it runs. *)
Inductive StartedContainerHook : Type :=
| PostReadyHook (bridge : nat)
| PreTerminateHook (bridge : nat).

Record ContainerLifecycleHooks : Type := mkHooks {
  PostReadies : list StartedContainerHook;
  PreTerminates : list StartedContainerHook
}.

(** What the process holds besides the caller's request: the containers
    made so far, each with the request it was made from, and the
    controllers that hooks refer to. *)
Record World : Type := mkWorld {
  created : list (Request * DockerContainer);
  bridges : list Bridge.system
}.

(** What [newSshdContainer] returns: [(nil, err)], [(sshd, err)] or [(sshd, nil)]. *)
Inductive provisioned : Type :=
| Failed (e : err)
| Partial (sshd : Bridge.sshdContainer) (e : err)
| Ready (sshd : Bridge.sshdContainer).

(** Lines 47-55: the network whose name is looked up for the bridge. *)
Definition sshdFirstNetwork (networks : list string) : string :=
  let first := if Nat.ltb 0 (length networks) then nth 0 networks "" else "" in
  if String.eqb first "bridge" && Nat.ltb 1 (length networks)
  then nth 1 networks ""
  else first.

(** Following the wording of the specification: the first network of the
    list that is not the platform default. *)
Definition first_non_default (networks : list string) : option string :=
  List.find (fun n => negb (String.eqb n "bridge")) networks.

(** Lines 68-79: [withNetwork(aliases, networkName)]. *)
Definition withNetwork (aliases : list string) (networkName : string) : RequestCustomizer :=
  fun req =>
    let req := set_Networks (Networks req ++ [networkName]) req in
    let m := match NetworkAliases req with Some m => m | None => ∅ end in
    Ok (set_NetworkAliases (Some (<[networkName := aliases]> m)) req).

(** Lines 153-157: the options are applied in order; the first error ends the loop. *)
Fixpoint customize (opts : list RequestCustomizer) (req : Request) : result Request :=
  match opts with
  | [] => Ok req
  | opt :: rest =>
      match opt req with
      | Ok req' => customize rest req'
      | Err e => Err e
      end
  end.

(** Lines 102-122: the modifier installed on the caller's request. *)
Definition exposeHostModifier (sshdIP firstNetwork : string)
    (originalHCM : HostConfigModifier_t) : HostConfigModifier_t :=
  fun hostConfig networks =>
    let hostConfig :=
      mkHostConfig (ExtraHosts hostConfig ++ [HostInternal +:+ ":" +:+ sshdIP])
        (NetworkMode hostConfig) in
    let modes := [firstNetwork; "none"; "host"] in
    let found := existsb (String.eqb (NetworkMode hostConfig)) modes in
    let networks := if found then networks else networks ++ [firstNetwork] in
    originalHCM hostConfig networks.

(** The call a hook makes on its controller when it runs with the caller's
    request as it is at that moment. *)
Definition hook_call (h : StartedContainerHook) (req : Request) : nat * Bridge.saction :=
  match h with
  | PostReadyHook b => (b, Bridge.Call_exposeHostPort (HostAccessPorts req))
  | PreTerminateHook b => (b, Bridge.Call_Terminate)
  end.

(** Running a hook: its controller starts the call. *)
Definition invoke (h : StartedContainerHook) (req : Request) (w : World) : outcome World :=
  let (b, call) := hook_call h req in
  match bridges w !! b with
  | None => Stuck
  | Some s =>
      match Bridge.step s call with
      | Next s' => Next (mkWorld (created w) (<[b := s']> (bridges w)))
      | Panic m => Panic m
      | Stuck => Stuck
      end
  end.

Section WithCollaborators.

(** The package variable of line 31, set once when the process starts. *)
Variable sshPassword : string.

(** The collaborators: the network lookup, the lifecycle manager's [New]
    (given how many containers the process has made so far), [MappedPort]
    (the port string of the mapped port) and [ContainerIP]. *)
Variable GetByName : string -> result DockerNetwork.
Variable New : nat -> Request -> result DockerContainer.
Variable MappedPort : DockerContainer -> string -> result string.
Variable ContainerIP : DockerContainer -> result string.

(** Lines 198-213: sets [sshdC.port] and builds the client configuration. *)
Definition configureSSHConfig (sshdC : Bridge.sshdContainer)
    : Bridge.sshdContainer * result ClientConfig :=
  match MappedPort (Bridge.container sshdC) sshPort with
  | Err e => (sshdC, Err e)
  | Ok mappedPort =>
      (Bridge.mkSshd (Bridge.container sshdC) mappedPort (Bridge.sshConfig sshdC)
         (Bridge.portForwarders sshdC),
       Ok (mkClientConfig user InsecureIgnoreHostKey [Password sshPassword] 30))
  end.

(** Lines 144-178. *)
Definition newSshdContainer (opts : list RequestCustomizer) (w : World)
    : provisioned * World :=
  let req :=
    mkRequest sshdImage [] [sshPort] {["PASSWORD" := sshPassword]} true [] None None in
  match customize opts req with
  | Err e => (Failed e, w)
  | Ok req =>
      match New (length (created w)) req with
      | Err e => (Failed e, w)
      | Ok dc =>
          let w := mkWorld (created w ++ [(req, dc)]) (bridges w) in
          let sshd := Bridge.mkSshd dc "" None [] in
          match configureSSHConfig sshd with
          | (sshd, Err e) => (Partial sshd e, w)
          | (sshd, Ok sshClientConfig) =>
              (Ready (Bridge.mkSshd (Bridge.container sshd) (Bridge.port sshd)
                        (Some sshClientConfig) (Bridge.portForwarders sshd)), w)
          end
      end
  end.

Definition no_hooks : ContainerLifecycleHooks := mkHooks [] [].

(** Lines 40-141.  The caller's request is passed by pointer: the function
    returns it as it leaves it. *)
Definition exposeHostPorts (req : Request) (p : list Z) (w : World)
    : (ContainerLifecycleHooks * error) * Request * World :=
  let sshdConnectHook := no_hooks in
  if Nat.eqb (length p) 0
  then ((sshdConnectHook, Some (ErrNew "no ports to expose")), req, w)
  else
    let firstNetwork := sshdFirstNetwork (Networks req) in
    let opts :=
      if Nat.ltb 0 (length (Networks req))
      then match GetByName firstNetwork with
           | Err e => Err (ErrWrap "failed to get the network" e)
           | Ok nw => Ok [withNetwork [HostInternal] (Name nw)]
           end
      else Ok [] in
    match opts with
    | Err e => ((sshdConnectHook, Some e), req, w)
    | Ok opts =>
        match newSshdContainer opts w with
        | (Failed e, w) | (Partial _ e, w) =>
            ((sshdConnectHook, Some (ErrWrap "failed to create the SSH server" e)), req, w)
        | (Ready sshdContainer, w) =>
            match ContainerIP (Bridge.container sshdContainer) with
            | Err e =>
                ((sshdConnectHook,
                  Some (ErrWrap "failed to get IP for the SSHD container" e)), req, w)
            | Ok sshdIP =>
                let originalHCM :=
                  match HostConfigModifier req with
                  | Some f => f
                  | None => fun hostConfig networks => (hostConfig, networks)
                  end in
                let req :=
                  set_HostConfigModifier
                    (Some (exposeHostModifier sshdIP firstNetwork originalHCM)) req in
                let b := length (bridges w) in
                let w :=
                  mkWorld (created w)
                    (bridges w ++
                       [Bridge.mkSystem sshdContainer false Bridge.Idle 0 [] [] []]) in
                ((mkHooks [PostReadyHook b] [PreTerminateHook b], None), req, w)
            end
        end
    end.

(** The secret a container was given: [Env["PASSWORD"]] of its request. *)
Definition container_secret (c : Request * DockerContainer) : option string :=
  Env (fst c) !! "PASSWORD".

(** The secrets a tunnel session authenticates with. *)
Definition session_secrets (cfg : ClientConfig) : list string :=
  map (fun a => match a with Password s => s end) (Auth cfg).

End WithCollaborators.

End Orchestrator.

(* --------------------------------------------------------------------- *)
(** ** Invariants of the relay *)
(* --------------------------------------------------------------------- *)

Module TunnelInv.
Import Tunnel.

(** Copying goroutines that have sent on [done]. *)
Definition exits (t : tunnel) : nat :=
  (match copy_in t with CpExit => 1 | _ => 0 end) +
  (match copy_out t with CpExit => 1 | _ => 0 end).

Definition spawned (c : copy_pc) : Prop := c <> CpIdle.

(** What holds of a relay whose local dial succeeded. *)
Definition relaying (t : tunnel) : Prop :=
  match pc t with
  | RtDial | RtCloseRemote => False
  | RtGoIn =>
      copy_in t = CpIdle /\ copy_out t = CpIdle /\ done t = 0%nat /\
      remote t = Open /\ local t = Open
  | RtGoOut =>
      spawned (copy_in t) /\ copy_out t = CpIdle /\ done t = exits t /\
      remote t = Open /\ local t = Open
  | RtWaitDone =>
      spawned (copy_in t) /\ spawned (copy_out t) /\ done t = exits t /\
      remote t = Open /\ local t = Open
  | RtDeferRemote =>
      spawned (copy_in t) /\ spawned (copy_out t) /\ S (done t) = exits t /\
      remote t = Open /\ local t = Open
  | RtDeferLocal =>
      spawned (copy_in t) /\ spawned (copy_out t) /\ S (done t) = exits t /\
      remote t = Closed /\ local t = Open
  | RtReturned =>
      spawned (copy_in t) /\ spawned (copy_out t) /\ S (done t) = exits t /\
      remote t = Closed /\ local t = Closed
  end.

(** The statements of [runTunnel] itself and of the goroutine of direction
    [d]: no statement of the other direction. *)
Definition own_or (d : direction) (a : taction) : Prop :=
  a = TRun \/ a = TSignal d.

End TunnelInv.

(* --------------------------------------------------------------------- *)
(** ** What a run of one forwarder decides, and its invariants *)
(* --------------------------------------------------------------------- *)

Module ForwarderInv.
Import Forwarder.

(** The answer the run gave to [ssh.Dial]: the result of its first dial. *)
Fixpoint dial_answer (acts : list paction) : option error :=
  match acts with
  | [] => None
  | PStep (ADial r) :: _ => Some r
  | _ :: rest => dial_answer rest
  end.

(** The answer the run gave to [client.Listen]. *)
Fixpoint listen_answer (acts : list paction) : option error :=
  match acts with
  | [] => None
  | PStep (AListen r) :: _ => Some r
  | _ :: rest => listen_answer rest
  end.

(** The outcome lines 259-276 send for these answers, once they are known. *)
Definition bind_outcome (acts : list paction) : option error :=
  match dial_answer acts with
  | None => None
  | Some (Some e) => Some (Some (ErrWrap "error dialing ssh server" e))
  | Some None =>
      match listen_answer acts with
      | None => None
      | Some (Some e) => Some (Some (ErrWrap "error listening on remote port" e))
      | Some None => Some None
      end
  end.

(** What holds at each program point of [Forward] after the run [acts]. *)
Definition bind_inv (acts : list paction) (f : forwarder) : Prop :=
  match fpc f with
  | FDial =>
      dial_answer acts = None /\ listen_answer acts = None /\
      delivered f = [] /\ tunnels f = []
  | FListen =>
      dial_answer acts = Some None /\ listen_answer acts = None /\
      delivered f = [] /\ tunnels f = []
  | FSendDialErr e | FSendListenErr e =>
      bind_outcome acts = Some (Some e) /\ delivered f = [] /\ tunnels f = []
  | FSendOk =>
      bind_outcome acts = Some None /\ delivered f = [] /\ tunnels f = []
  | FSelect | FCloseListener | FCloseClient | FAccept | FDeferListener _ =>
      bind_outcome acts = Some None /\ delivered f = [None]
  | FDeferClient ret | FReturned ret =>
      (bind_outcome acts = Some None /\ delivered f = [None]) \/
      (exists e, ret = Some e /\ bind_outcome acts = Some ret /\
                 delivered f = [ret] /\ tunnels f = [])
  end.

(** The answers to the first [listener.Close()] and the first
    [client.Close()] of a run. *)
Fixpoint close_listener_answer (acts : list paction) : option error :=
  match acts with
  | [] => None
  | PStep (ACloseListener r) :: _ => Some r
  | _ :: rest => close_listener_answer rest
  end.

Fixpoint close_client_answer (acts : list paction) : option error :=
  match acts with
  | [] => None
  | PStep (ACloseClient r) :: _ => Some r
  | _ :: rest => close_client_answer rest
  end.

(** The value lines 281-287 (and 289-295) return for these answers. *)
Definition closing_result (acts : list paction) : option error :=
  match close_listener_answer acts with
  | None => None
  | Some (Some e) => Some (Some (ErrWrap "error closing listener" e))
  | Some None =>
      match close_client_answer acts with
      | None => None
      | Some (Some e) => Some (Some (ErrWrap "error closing client" e))
      | Some None => Some None
      end
  end.

(** A cancellation or an explicit close has arrived. *)
Definition signalled (s : process) : Prop :=
  ctx_done s = true \/ terminateChan (fwd s) = ChClosed.

(** What holds at each program point after the select, in a run [acts]
    that started at the select with a signal present. *)
Definition cancel_inv (acts : list paction) (f : forwarder) : Prop :=
  match fpc f with
  | FSelect | FCloseListener =>
      close_listener_answer acts = None /\ close_client_answer acts = None
  | FCloseClient =>
      close_listener_answer acts = Some None /\ close_client_answer acts = None /\
      listener f = Closed
  | FDeferListener ret => closing_result acts = Some ret
  | FDeferClient ret => closing_result acts = Some ret /\ listener f = Closed
  | FReturned ret =>
      closing_result acts = Some ret /\ listener f = Closed /\ client f = Closed
  | _ => False
  end.


(** An action that answers neither the dial nor the listen request. *)
Definition answers_nothing (a : paction) : Prop :=
  match a with
  | PStep (ADial _) | PStep (AListen _) => False
  | _ => True
  end.



End ForwarderInv.

(* --------------------------------------------------------------------- *)
(** ** Invariants of the controller while [exposeHostPort] runs *)
(* --------------------------------------------------------------------- *)

Module BridgeInv.
Import Forwarder Bridge.

(** A value that stands for itself: nil, or an error that is not a join. *)
Definition plain (v : error) : Prop :=
  reported v = match v with None => [] | Some e => [e] end.

(** What holds of every forwarder of the collection: what it delivers is
    plain, and it has delivered one value exactly when it is past its send. *)
Definition fwd_ok (f : forwarder) : Prop :=
  Forall plain (delivered f) /\
  (forall v, sending f = Some v -> plain v) /\
  (if past_bind (fpc f) then length (delivered f) = 1%nat else delivered f = []).

(** The forwarder is past its send. *)
Definition bound (f : forwarder) : Prop := past_bind (fpc f) = true.

(** While [exposeHostPort] runs and is about to receive from index [i]. *)
Definition expose_inv (i : nat) (s : system) : Prop :=
  (base s <= length (pfs s))%nat /\
  length (received s) = i /\
  forall j f, pfs s !! j = Some f ->
    ((j < base s)%nat -> bound f) /\
    ((base s <= j)%nat ->
       both_open f /\
       ((j < i)%nat -> exists v, received s !! j = Some v /\ delivered f = [v]) /\
       ((i <= j)%nat -> past_bind (fpc f) = false)).

(** The structs of the collection, without their run-time state. *)
Definition structs (s : system) : list PortForwarder := map pf (pfs s).

Definition ports_inv (todo : list Z) (s : system) : Prop :=
  requested s = map remotePort (drop (base s) (structs s)) ++ todo /\
  Forall (fun p => localPort p = remotePort p) (drop (base s) (structs s)).

(** What holds at each program point of the calling goroutine. *)
Definition phase_inv (s : system) : Prop :=
  match ctl s with
  | ExposeLoop todo => expose_inv 0 s /\ ports_inv todo s
  | ExposeWait i e =>
      expose_inv i s /\ (i <= length (pfs s))%nat /\ ports_inv [] s /\
      e = join_all (received s)
  | ExposeReturned e =>
      expose_inv (length (pfs s)) s /\ ports_inv [] s /\ e = join_all (received s)
  | _ => Forall bound (pfs s)
  end.

Definition sys_inv (s : system) : Prop :=
  Forall fwd_ok (pfs s) /\ Forall plain (received s) /\ phase_inv s.

(** What the network answers to the bind attempt of one forwarder. *)
Inductive bind_answer : Type :=
| DialFails (e : err)
| ListenFails (e : err)
| Binds.

(** The outcome [Forward] sends for an answer. *)
Definition outcome_of (b : bind_answer) : error :=
  match b with
  | DialFails e => Some (ErrWrap "error dialing ssh server" e)
  | ListenFails e => Some (ErrWrap "error listening on remote port" e)
  | Binds => None
  end.

(** A schedule: the goroutine of [portForwarders[j]] runs up to its send,
    then the controller receives from it. *)
Definition answer_acts (j : nat) (b : bind_answer) : list saction :=
  match b with
  | DialFails e => [Go j (ADial (Some e)); Ctl None]
  | ListenFails e => [Go j (ADial None); Go j (AListen (Some e)); Ctl None]
  | Binds => [Go j (ADial None); Go j (AListen None); Ctl None]
  end.

Fixpoint schedule (j : nat) (bs : list bind_answer) : list saction :=
  match bs with
  | [] => []
  | b :: bs => answer_acts j b ++ schedule (S j) bs
  end.

(** A whole call on [ports]: set up every forwarder, let each bind attempt
    be answered, leave the second loop. *)
Definition expose_schedule (ports : list Z) (bs : list bind_answer) : list saction :=
  Call_exposeHostPort ports :: repeat (Ctl None) (S (length ports)) ++
  schedule 0 bs ++ [Ctl None].
(** The forwarder line 217 makes for port [p]. *)
Definition fresh_fwd (s : system) (p : Z) : forwarder :=
  NewPortForwarder ("localhost:" +:+ port (sshd s)) (sshConfig (sshd s)) p p.
End BridgeInv.

(* --------------------------------------------------------------------- *)
(** ** Invariants of the controller while [Terminate] runs *)
(* --------------------------------------------------------------------- *)

Module TerminateInv.
Import Forwarder Bridge BridgeInv.





End TerminateInv.

(* --------------------------------------------------------------------- *)
(** ** Notions used to state the properties of the orchestrator *)
(* --------------------------------------------------------------------- *)

Module OrchestratorSpec.
Import Orchestrator.

(** The request of lines 145-151, before the options are applied. *)
Definition sshd_request (sshPassword : string) : Request :=
  mkRequest sshdImage [] [sshPort] {["PASSWORD" := sshPassword]} true [] None None.

(** The options [exposeHostPorts] passes to [newSshdContainer] for a caller
    whose networks are [networks]: none, or [withNetwork] on the network the
    lookup returned. *)
Definition bridge_options (GetByName : string -> result DockerNetwork)
    (networks : list string) : result (list RequestCustomizer) :=
  if Nat.ltb 0 (length networks)
  then match GetByName (sshdFirstNetwork networks) with
       | Err e => Err (ErrWrap "failed to get the network" e)
       | Ok nw => Ok [withNetwork [HostInternal] (Name nw)]
       end
  else Ok [].

(** The modifier the caller's request had, or the empty one of line 97. *)
Definition original_modifier (req : Request) : HostConfigModifier_t :=
  match HostConfigModifier req with
  | Some f => f
  | None => fun hostConfig networks => (hostConfig, networks)
  end.

(** The controller a successful call registers for its two hooks. *)
Definition new_bridge (dc : DockerContainer) (mappedPort : string)
    (sshPassword : string) : Bridge.system :=
  Bridge.mkSystem
    (Bridge.mkSshd dc mappedPort
       (Some (mkClientConfig user InsecureIgnoreHostKey [Password sshPassword] 30)) [])
    false Bridge.Idle 0 [] [] [].

(** Collaborators of a process in which everything succeeds: the lookup
    returns the network of that name, the n-th container made gets the
    identifier [sshd-n] and [22] is mapped to [32768]. *)
Definition lookup_ok (name : string) : result DockerNetwork :=
  Ok (mkDockerNetwork name ("id-" +:+ name)).
Definition new_ok (n : nat) (_ : Request) : result DockerContainer :=
  Ok (mkDockerContainer ("sshd-" +:+ pretty n)).
Definition mapped_ok (_ : DockerContainer) (_ : string) : result string :=
  Ok "32768".
Definition ip_ok (_ : DockerContainer) : result string := Ok "172.17.0.2".

Definition empty_world : World := mkWorld [] [].

(** A caller's request that names its ports in [HostAccessPorts]. *)
Definition caller_request (networks : list string) (ports : list Z) : Request :=
  mkRequest "nginx:alpine" ports ["80/tcp"] ∅ true networks None None.

End OrchestratorSpec.

(* --------------------------------------------------------------------- *)
(** ** What [Forward] owns at each program point *)
(* --------------------------------------------------------------------- *)

Module ForwardReturn.
Import Forwarder ForwarderInv.

(** The client and the listener at each program point of [Forward]; the
    explicit closes of lines 281-295 are reached only after a cancellation
    or a close was seen at the select, and only they lead to a nil result. *)
Definition own_inv (s : process) : Prop :=
  match fpc (fwd s) with
  | FDial | FSendDialErr _ =>
      client (fwd s) = NoConn /\ listener (fwd s) = NoConn
  | FListen | FSendListenErr _ =>
      client (fwd s) = Open /\ listener (fwd s) = NoConn
  | FSendOk | FSelect | FAccept =>
      client (fwd s) = Open /\ listener (fwd s) = Open
  | FCloseListener =>
      client (fwd s) = Open /\ listener (fwd s) = Open /\ signalled s
  | FCloseClient =>
      client (fwd s) = Open /\ listener (fwd s) = Closed /\ signalled s
  | FDeferListener ret =>
      client (fwd s) <> NoConn /\ listener (fwd s) <> NoConn /\
      (ret = None ->
       signalled s /\ client (fwd s) = Closed /\ listener (fwd s) = Closed)
  | FDeferClient ret =>
      client (fwd s) <> NoConn /\ listener (fwd s) <> Open /\
      (ret = None ->
       signalled s /\ client (fwd s) = Closed /\ listener (fwd s) = Closed)
  | FReturned ret =>
      client (fwd s) <> Open /\ listener (fwd s) <> Open /\
      (client (fwd s) = NoConn -> listener (fwd s) = NoConn) /\
      (ret = None ->
       signalled s /\ client (fwd s) = Closed /\ listener (fwd s) = Closed)
  end.

End ForwardReturn.

(* --------------------------------------------------------------------- *)
(** ** The accept loop and the closes of [Forward] *)
(* --------------------------------------------------------------------- *)

Module AcceptLoop.
Import Forwarder.

(** The first error [listener.Accept()] answers in a run. *)
Fixpoint accept_error (acts : list paction) : option err :=
  match acts with
  | [] => None
  | PStep (AAccept (Some e)) :: _ => Some e
  | _ :: rest => accept_error rest
  end.

Definition is_accept (a : paction) : bool :=
  match a with PStep (AAccept None) => true | _ => false end.

(** Connections accepted in a run. *)
Definition accepts (acts : list paction) : nat :=
  length (List.filter is_accept acts).

(** [Forward] is on its way out with the result [ret]: at one of its
    deferred closes, or returned. *)
Definition returning (ret : error) (p : forward_pc) : Prop :=
  p = FDeferListener ret \/ p = FDeferClient ret \/ p = FReturned ret.

Definition is_listener_close (a : paction) : bool :=
  match a with PStep (ACloseListener _) => true | _ => false end.
Definition is_client_close (a : paction) : bool :=
  match a with PStep (ACloseClient _) => true | _ => false end.

(** How often [listener.Close()] and [client.Close()] ran. *)
Definition listener_closes (acts : list paction) : nat :=
  length (List.filter is_listener_close acts).
Definition client_closes (acts : list paction) : nat :=
  length (List.filter is_client_close acts).

(** The closes that have run at each program point: [nl] of the listener,
    [nc] of the client. *)
Definition closes_inv (nl nc : nat) (p : forward_pc) : Prop :=
  match p with
  | FCloseClient => nl = 1%nat /\ nc = 0%nat
  | FDeferListener ret =>
      (nl = 0%nat /\ nc = 0%nat /\ ret <> None) \/
      (nl = 1%nat /\ nc = 0%nat /\ ret <> None) \/
      (nl = 1%nat /\ nc = 1%nat)
  | FDeferClient ret =>
      (nl = 0%nat /\ nc = 0%nat /\ ret <> None) \/
      (nl = 1%nat /\ nc = 0%nat /\ ret <> None) \/
      (nl = 2%nat /\ nc = 0%nat /\ ret <> None) \/
      (nl = 2%nat /\ nc = 1%nat)
  | FReturned ret =>
      (nl = 0%nat /\ nc = 0%nat /\ ret <> None) \/
      (nl = 0%nat /\ nc = 1%nat /\ ret <> None) \/
      (nl = 1%nat /\ nc = 1%nat /\ ret <> None) \/
      (nl = 2%nat /\ nc = 1%nat /\ ret <> None) \/
      (nl = 2%nat /\ nc = 2%nat)
  | _ => nl = 0%nat /\ nc = 0%nat
  end.

End AcceptLoop.

(* --------------------------------------------------------------------- *)
(** ** The [done] channel of a relay *)
(* --------------------------------------------------------------------- *)

Module TunnelDone.
Import Tunnel TunnelInv.

(** The local dial failed: no copying goroutine is ever started. *)
Definition unspawned (t : tunnel) : Prop :=
  copy_in t = CpIdle /\ copy_out t = CpIdle /\ done t = 0%nat /\
  (pc t = RtCloseRemote \/ pc t = RtReturned).

End TunnelDone.

(* --------------------------------------------------------------------- *)
(** ** The collection of forwarders over the life of a controller *)
(* --------------------------------------------------------------------- *)

Module Collection.
Import Forwarder Bridge BridgeInv.

(** A forwarder struct as line 217 makes it for this controller. *)
Definition made_by (s : system) (p : PortForwarder) : Prop :=
  sshDAddr p = "localhost:" +:+ port (sshd s) /\
  Forwarder.sshConfig p = Bridge.sshConfig (sshd s) /\
  localPort p = remotePort p.

(** [exposeHostPort] is in one of its two loops, and has not received from
    an index beyond [k]. *)
Definition waiting_at_most (k : nat) (p : ctl_pc) : Prop :=
  match p with
  | ExposeLoop _ => True
  | ExposeWait i _ => (i <= k)%nat
  | _ => False
  end.

(** A forwarder after [Close]: both channels closed, nothing else touched. *)
Definition closed_down (f : forwarder) : forwarder :=
  set_connectionCreated ChClosed (set_terminateChan ChClosed f).

End Collection.

(* ===================================================================== *)
(** * Part II: properties *)
(* ===================================================================== *)

Ltac own_steps :=
  repeat (apply Forall_cons; split; [first [left; reflexivity|right; reflexivity]|]);
  apply Forall_nil_2.

Ltac wind_up l :=
  solve [exists l; eexists;
         split; [own_steps|split; [reflexivity|simpl; repeat split; reflexivity]]].

Section TunnelFacts.
Import Tunnel TunnelInv.

Lemma relaying_step t a t' :
  relaying t -> runTunnel_step t a = Some t' -> relaying t'.
Proof.
  destruct t as [p ci co dn r l].
  unfold relaying, runTunnel_step, spawned, exits; simpl.
  destruct a as [[e|]| |d r'|d]; try destruct d;
    destruct p; simpl; intros H Hs; try discriminate; try contradiction;
    destruct H as (H1 & H2 & H3 & H4 & H5); subst;
    repeat match type of Hs with
           | context [match ?x with _ => _ end] => destruct x eqn:?; simpl in Hs; try discriminate
           end;
    simplify_eq; simpl in *; repeat split; try congruence; try lia.
Qed.

Lemma relaying_run acts : forall t t',
  relaying t -> Tunnel.run t acts = Some t' -> relaying t'.
Proof.
  induction acts as [|a acts IH]; intros t t' Hr; simpl.
  - intros [= <-]. exact Hr.
  - destruct (runTunnel_step t a) as [t1|] eqn:Hs; [|discriminate].
    eauto using relaying_step.
Qed.

Lemma relaying_closed t :
  relaying t ->
  (remote t = Closed \/ local t = Closed ->
   finished (copy_in t) || finished (copy_out t) = true) /\
  (pc t = RtReturned -> remote t = Closed /\ local t = Closed).
Proof.
  destruct t as [p ci co dn r l]. unfold relaying, exits, spawned; simpl.
  destruct p; try contradiction; intros (H1 & H2 & H3 & H4 & H5); subst;
    (split; [intros [?|?]; try discriminate|intros ?; try discriminate; auto]);
    destruct ci, co; simpl in *; try reflexivity; try congruence; try lia.
Qed.

Lemma relaying_winds_up t d :
  relaying t -> finished (get_copy d t) = true ->
  exists acts t', Forall (own_or d) acts /\ Tunnel.run t acts = Some t' /\
    pc t' = RtReturned /\ remote t' = Closed /\ local t' = Closed.
Proof.
  destruct t as [p ci co dn r l]. unfold relaying, exits, spawned; simpl.
  intros H Hf.
  destruct p; try contradiction; destruct H as (H1 & H2 & H3 & H4 & H5);
    destruct ci, co, d; simpl in *; subst; try discriminate; try congruence;
    try (assert (dn = 0%nat) by lia; subst); try (assert (dn = 1%nat) by lia; subst);
    first
      [ wind_up (@nil taction)
      | wind_up [TRun]
      | wind_up [TRun; TRun]
      | wind_up [TRun; TRun; TRun]
      | wind_up [TRun; TRun; TRun; TRun]
      | wind_up [TSignal In_; TRun; TRun; TRun]
      | wind_up [TSignal Out_; TRun; TRun; TRun]
      | wind_up [TSignal In_; TRun; TRun; TRun; TRun] ].
Qed.
End TunnelFacts.

Ltac step_cases H :=
  try match type of H with
      | Forwarder.Forward_step _ (Forwarder.mkForwarder _ _ _ ?pc _ _ _ _) ?a = _ =>
          (is_var a; destruct a as [[?|]|[?|]| |[| |]|[?|]|[?|]|[?|]|? ?| |]) || idtac;
          (is_var pc; destruct pc) || idtac
      end;
  unfold Forwarder.Forward_step, Forwarder.send, close in H; simpl in H;
  try discriminate; repeat case_match; simplify_eq; simpl in *.

Ltac break_hyps :=
  repeat (simplify_eq; simpl in *; destruct_and?; destruct_or?;
          try match goal with H : ex _ |- _ => destruct H end).


Section FwdFacts.
Import Forwarder ForwarderInv.

Lemma run_snoc s acts a :
  run s (acts ++ [a]) =
  match run s acts with
  | Next s' => process_step s' a
  | Panic m => Panic m
  | Stuck => Stuck
  end.
Proof.
  revert s; induction acts as [|b acts IH]; intros s; simpl.
  - destruct (process_step s a); reflexivity.
  - destruct (process_step s b); auto.
Qed.

Lemma dial_answer_snoc acts a :
  dial_answer (acts ++ [a]) =
  match dial_answer acts with
  | Some r => Some r
  | None => match a with PStep (ADial r) => Some r | _ => None end
  end.
Proof.
  induction acts as [|b acts IH]; simpl.
  - destruct a as [|[]]; reflexivity.
  - destruct b as [|[]]; auto.
Qed.

Lemma listen_answer_snoc acts a :
  listen_answer (acts ++ [a]) =
  match listen_answer acts with
  | Some r => Some r
  | None => match a with PStep (AListen r) => Some r | _ => None end
  end.
Proof.
  induction acts as [|b acts IH]; simpl.
  - destruct a as [|[]]; reflexivity.
  - destruct b as [|[]]; auto.
Qed.




Lemma bind_inv_snoc acts a f :
  answers_nothing a -> bind_inv acts f -> bind_inv (acts ++ [a]) f.
Proof.
  intros Ha. unfold bind_inv, bind_outcome.
  rewrite dial_answer_snoc, listen_answer_snoc.
  assert (Hd : match a with PStep (ADial r) => Some r | _ => None end = None)
    by (destruct a as [|[]]; simpl in Ha; tauto).
  assert (Hl : match a with PStep (AListen r) => Some r | _ => None end = None)
    by (destruct a as [|[]]; simpl in Ha; tauto).
  rewrite Hd, Hl.
  destruct (dial_answer acts) as [[?|]|], (listen_answer acts) as [[?|]|]; auto.
Qed.

Lemma bind_inv_step_same acts c f a f' :
  answers_nothing (PStep a) ->
  bind_inv acts f -> Forward_step c f a = Next f' -> bind_inv acts f'.
Proof.
  intros Ha Hi Hs. unfold bind_inv in *.
  destruct f as [p cc tc pc dl cl li ts]; simpl in *.
  destruct a as [[?|]|[?|]| |[| |]|[?|]|[?|]|[?|]|? ?| |]; destruct pc;
    simpl in *; try contradiction; try discriminate;
    step_cases Hs; try tauto; break_hyps; eauto 10.
Qed.

Lemma bind_inv_step acts c f a f' :
  bind_inv acts f -> Forward_step c f a = Next f' ->
  bind_inv (acts ++ [PStep a]) f'.
Proof.
  intros Hi Hs.
  assert (Hother : answers_nothing (PStep a) -> bind_inv (acts ++ [PStep a]) f')
    by (intros Ha; apply bind_inv_snoc; eauto using bind_inv_step_same).
  destruct a as [r|r| | | | | | | |]; try (apply Hother; exact I); clear Hother;
    unfold bind_inv, bind_outcome in *;
    rewrite dial_answer_snoc, listen_answer_snoc;
    destruct f as [p cc tc pc dl cl li ts];
    destruct r; destruct pc; simpl in *; try discriminate;
    step_cases Hs; break_hyps;
    repeat match goal with H : _ = Some _ |- _ => rewrite H | H : _ = None |- _ => rewrite H end;
    auto.
Qed.

Lemma bind_inv_run addr cfg rp lp acts s :
  run (start addr cfg rp lp) acts = Next s -> bind_inv acts (fwd s).
Proof.
  revert s. induction acts as [|a acts IH] using rev_ind; intros s.
  - simpl. intros [= <-]. unfold bind_inv; simpl. auto.
  - rewrite run_snoc. destruct (run (start addr cfg rp lp) acts) as [s1| |] eqn:Hr;
      try discriminate.
    specialize (IH s1 eq_refl). destruct a as [|a]; simpl.
    + intros [= <-]. simpl. apply bind_inv_snoc; [exact I|done].
    + destruct (Forward_step (ctx_done s1) (fwd s1) a) eqn:Hs; try discriminate.
      intros [= <-]. simpl. eauto using bind_inv_step.
Qed.

Lemma close_listener_answer_snoc acts a :
  close_listener_answer (acts ++ [a]) =
  match close_listener_answer acts with
  | Some r => Some r
  | None => match a with PStep (ACloseListener r) => Some r | _ => None end
  end.
Proof.
  induction acts as [|b acts IH]; simpl.
  - destruct a as [|[]]; reflexivity.
  - destruct b as [|[]]; auto.
Qed.

Lemma close_client_answer_snoc acts a :
  close_client_answer (acts ++ [a]) =
  match close_client_answer acts with
  | Some r => Some r
  | None => match a with PStep (ACloseClient r) => Some r | _ => None end
  end.
Proof.
  induction acts as [|b acts IH]; simpl.
  - destruct a as [|[]]; reflexivity.
  - destruct b as [|[]]; auto.
Qed.

Lemma signalled_step s a s' :
  signalled s -> process_step s a = Next s' -> signalled s'.
Proof.
  unfold signalled. destruct s as [c f]; destruct a as [|a]; simpl.
  - intros _ [= <-]. auto.
  - destruct (Forward_step c f a) as [f'| |] eqn:Hs; try discriminate.
    intros H [= <-]; simpl. destruct H as [H|H]; [auto|right].
    destruct f as [p cc tc pc dl cl li ts]; simpl in *.
    step_cases Hs; auto.
Qed.

Lemma cancel_inv_step acts s a s' :
  signalled s -> cancel_inv acts (fwd s) -> process_step s a = Next s' ->
  cancel_inv (acts ++ [a]) (fwd s').
Proof.
  unfold signalled, cancel_inv, closing_result.
  rewrite close_listener_answer_snoc, close_client_answer_snoc.
  destruct s as [c f]; destruct a as [|a]; simpl.
  - intros _ H [= <-]; simpl.
    destruct (fpc f); try tauto;
      destruct (close_listener_answer acts) as [[?|]|],
               (close_client_answer acts) as [[?|]|]; auto.
  - destruct (Forward_step c f a) as [f'| |] eqn:Hs; try discriminate.
    intros Hsig H [= <-]; simpl.
    destruct f as [p cc tc pc dl cl li ts]; simpl in *.
    destruct a as [[?|]|[?|]| |[| |]|[?|]|[?|]|[?|]|? ?| |]; destruct pc;
      simpl in *; try contradiction; try discriminate;
      step_cases Hs;
      destruct (close_listener_answer acts) as [[?|]|],
               (close_client_answer acts) as [[?|]|];
      break_hyps; auto; try (destruct c; discriminate).
Qed.

Lemma cancel_inv_run s acts s' :
  fpc (fwd s) = FSelect -> signalled s -> run s acts = Next s' ->
  signalled s' /\ cancel_inv acts (fwd s').
Proof.
  intros Hpc Hsig. revert s'.
  induction acts as [|a acts IH] using rev_ind; intros s'.
  - simpl. intros [= <-]. split; [done|]. unfold cancel_inv. rewrite Hpc. auto.
  - rewrite run_snoc. destruct (run s acts) as [s1| |]; try discriminate.
    destruct (IH s1 eq_refl) as [H1 H2]. intros Hs.
    eauto using signalled_step, cancel_inv_step.
Qed.

Lemma past_bind_step c f a f' :
  past_bind (fpc f) = true -> Forward_step c f a = Next f' ->
  past_bind (fpc f') = true /\ delivered f' = delivered f.
Proof.
  intros Hp Hs. destruct f as [p cc tc pc dl cl li ts]; simpl in *.
  step_cases Hs; auto.
Qed.




End FwdFacts.

Section BridgeFacts.
Import Forwarder Bridge BridgeInv.

Lemma fwd_ok_step c f a f' :
  fwd_ok f -> Forward_step c f a = Next f' -> fwd_ok f'.
Proof.
  unfold fwd_ok, sending, plain. intros (H1 & H2 & H3) Hs.
  destruct f as [p cc tc pc dl cl li ts]; simpl in *.
  step_cases Hs; break_hyps; repeat split; auto; try discriminate;
    try (intros ? [= <-]; reflexivity);
    try (repeat constructor; apply (H2 _ eq_refl)).
Qed.

Lemma fwd_ok_new addr cfg rp lp : fwd_ok (NewPortForwarder addr cfg rp lp).
Proof. unfold fwd_ok; simpl. repeat split; auto. discriminate. Qed.


(** A statement of a goroutine other than its send leaves the struct, the
    channels and the delivered values alone, and does not cross the send. *)
Lemma go_local c f a f' :
  Forward_step c f a = Next f' ->
  a <> ASend -> a <> ACloseTerminate -> a <> ACloseCreated ->
  pf f' = pf f /\ connectionCreated f' = connectionCreated f /\
  terminateChan f' = terminateChan f /\ delivered f' = delivered f /\
  past_bind (fpc f') = past_bind (fpc f).
Proof.
  intros Hs H1 H2 H3. destruct f as [p cc tc pc dl cl li ts]; simpl in *.
  step_cases Hs; auto; congruence.
Qed.

Lemma step_pf c f a f' : Forward_step c f a = Next f' -> pf f' = pf f.
Proof.
  intros Hs. destruct f as [p cc tc pc dl cl li ts]; simpl in *.
  step_cases Hs; auto.
Qed.

Lemma structs_insert s i f f' :
  pfs s !! i = Some f -> pf f' = pf f ->
  map pf (<[i := f']> (pfs s)) = map pf (pfs s).
Proof.
  intros Hl Hp. rewrite list_fmap_insert, Hp.
  apply list_insert_id. rewrite list_lookup_fmap, Hl. reflexivity.
Qed.

Lemma send_closed_not_next c f f' :
  is_closed (connectionCreated f) = true -> Forward_step c f ASend <> Next f'.
Proof.
  intros Hc Hs. destruct f as [p cc tc pc dl cl li ts]; simpl in *.
  destruct cc; [discriminate|]. destruct pc; simpl in Hs; discriminate.
Qed.

Lemma go_step_inv s i a s' :
  go_step s i a = Next s' ->
  exists f f', pfs s !! i = Some f /\ Forward_step (ctx_done s) f a = Next f' /\
    s' = set_pfs (<[i := f']> (pfs s)) s /\
    a <> ASend /\ a <> ACloseTerminate /\ a <> ACloseCreated.
Proof.
  unfold go_step. destruct (pfs s !! i) as [f|] eqn:Hl; [|discriminate].
  intros H. exists f.
  destruct (Forward_step (ctx_done s) f a) as [f'|m|] eqn:Hs.
  - exists f'. destruct a; try discriminate H;
      try (injection H as <-; repeat split; auto; discriminate).
    destruct (is_closed (connectionCreated f)) eqn:Hc; [|discriminate].
    exfalso. eapply send_closed_not_next; eauto.
  - destruct a; try discriminate H. destruct (is_closed _); discriminate.
  - destruct a; try discriminate H. destruct (is_closed _); discriminate.
Qed.
End BridgeFacts.

Section BridgeFacts2.
Import Forwarder Bridge BridgeInv.

Lemma expose_inv_go i0 s i f f' a :
  expose_inv i0 s -> pfs s !! i = Some f ->
  Forward_step (ctx_done s) f a = Next f' ->
  a <> ASend -> a <> ACloseTerminate -> a <> ACloseCreated ->
  expose_inv i0 (set_pfs (<[i := f']> (pfs s)) s).
Proof.
  intros (Hb & Hr & Hall) Hl Hs N1 N2 N3.
  destruct (go_local _ _ _ _ Hs N1 N2 N3) as (E1 & E2 & E3 & E4 & E5).
  unfold expose_inv, pfs in *; simpl. rewrite length_insert.
  split; [done|]. split; [done|].
  intros j g Hg. apply list_lookup_insert_Some in Hg.
  destruct Hg as [(<- & <- & Hlt)|[Hne Hg]]; [|by apply Hall].
  destruct (Hall _ _ Hl) as [A B]. unfold bound, both_open in *.
  rewrite E2, E3, E4, E5. auto.
Qed.

Lemma ports_inv_go todo s i f f' :
  ports_inv todo s -> pfs s !! i = Some f -> pf f' = pf f ->
  ports_inv todo (set_pfs (<[i := f']> (pfs s)) s).
Proof.
  unfold ports_inv, structs. intros H Hl Hp.
  replace (pfs (set_pfs (<[i:=f']> (pfs s)) s)) with (<[i:=f']> (pfs s)) by reflexivity.
  rewrite (structs_insert _ _ _ _ Hl Hp). exact H.
Qed.

Lemma bound_step c f a f' :
  bound f -> Forward_step c f a = Next f' -> bound f'.
Proof. intros Hb Hs. apply (past_bind_step _ _ _ _ Hb Hs). Qed.

Lemma bound_insert s i f f' a :
  Forall bound (pfs s) -> pfs s !! i = Some f ->
  Forward_step (ctx_done s) f a = Next f' ->
  Forall bound (<[i := f']> (pfs s)).
Proof.
  intros Hb Hl Hs. apply Forall_insert; [done|].
  eapply bound_step; [|exact Hs]. eapply Forall_lookup_1; eauto.
Qed.

Lemma sys_inv_go s i a s' :
  sys_inv s -> go_step s i a = Next s' -> sys_inv s'.
Proof.
  intros (Hok & Hpl & Hph) Hg.
  destruct (go_step_inv _ _ _ _ Hg) as (f & f' & Hl & Hs & -> & N1 & N2 & N3).
  pose proof (step_pf _ _ _ _ Hs) as Hpf.
  split; [|split].
  - apply Forall_insert; [done|]. eapply fwd_ok_step; [|exact Hs].
    eapply Forall_lookup_1; eauto.
  - exact Hpl.
  - unfold phase_inv in *. change (ctl (set_pfs (<[i:=f']> (pfs s)) s)) with (ctl s).
    change (received (set_pfs (<[i:=f']> (pfs s)) s)) with (received s).
    change (pfs (set_pfs (<[i:=f']> (pfs s)) s)) with (<[i:=f']> (pfs s)).
    rewrite length_insert.
    destruct (ctl s) as [|todo|i0 e|e|i0 half| |r0].
    + eapply bound_insert; eauto.
    + destruct Hph as [He Hp]. split; eauto using expose_inv_go, ports_inv_go.
    + destruct Hph as (He & Hi & Hp & Hj).
      split; [|split; [|split]]; eauto using expose_inv_go, ports_inv_go.
    + destruct Hph as (He & Hp & Hj).
      split; [|split; [|done]]; eauto using expose_inv_go, ports_inv_go.
    + eapply bound_insert; eauto.
    + eapply bound_insert; eauto.
    + eapply bound_insert; eauto.
Qed.

Lemma receive_inv c f v f' :
  receive c f = Next (v, f') ->
  (connectionCreated f = ChClosed /\ v = None /\ f' = f) \/
  (connectionCreated f = ChOpen /\ sending f = Some v /\
   Forward_step c f ASend = Next f' /\
   delivered f' = delivered f ++ [v] /\
   connectionCreated f' = ChOpen /\ terminateChan f' = terminateChan f /\
   past_bind (fpc f) = false /\ past_bind (fpc f') = true).
Proof.
  unfold receive. destruct (connectionCreated f) eqn:Hc.
  - destruct (sending f) as [w|] eqn:Hw; [|discriminate].
    destruct (Forward_step c f ASend) as [g| |] eqn:Hs; try discriminate.
    intros [= <- <-]. right.
    destruct f as [p cc tc pc dl cl li ts]; unfold sending in Hw; simpl in *.
    step_cases Hs; auto 10.
  - intros [= <- <-]. auto.
Qed.

Lemma join_all_snoc vs v : join_all (vs ++ [v]) = errors_Join [join_all vs; v].
Proof. unfold join_all. rewrite fold_left_app. reflexivity. Qed.

Lemma sys_inv_spawn s p todo :
  sys_inv s -> ctl s = ExposeLoop (p :: todo) ->
  sys_inv (set_ctl (ExposeLoop todo) (spawn s p)).
Proof.
  intros (Hok & Hpl & Hph) Hc. unfold phase_inv in Hph. rewrite Hc in Hph.
  destruct Hph as [(Hb & Hr & Hall) [Hreq Hloc]].
  split; [|split].
  - unfold spawn, pfs; simpl. apply Forall_app. split; [done|].
    repeat constructor; try discriminate.
  - exact Hpl.
  - unfold phase_inv; simpl. split.
    + unfold expose_inv, spawn, pfs in *; simpl. rewrite length_app; simpl.
      split; [lia|]. split; [done|].
      intros j f Hj. apply lookup_app_Some in Hj.
      destruct Hj as [Hj|[Hge Hj]]; [by apply Hall|].
      apply list_lookup_singleton_Some in Hj. destruct Hj as [Hj <-].
      split; [lia|]. intros _. repeat split; auto. lia.
    + unfold ports_inv, structs, spawn, pfs in *; simpl.
      rewrite map_app, drop_app_le by (rewrite length_map; exact Hb).
      simpl. rewrite map_app, <- app_assoc. simpl. split; [exact Hreq|].
      apply Forall_app. split; [done|]. repeat constructor.
Qed.
End BridgeFacts2.

Section BridgeFacts3.
Import Forwarder Bridge BridgeInv.

Lemma plain_None : plain None.
Proof. reflexivity. Qed.

Lemma sys_inv_receive s i e f v f' :
  sys_inv s -> ctl s = ExposeWait i e -> pfs s !! i = Some f ->
  receive (ctx_done s) f = Next (v, f') ->
  sys_inv (set_ctl (ExposeWait (S i) (errors_Join [e; v]))
             (set_received (received s ++ [v]) (set_pfs (<[i := f']> (pfs s)) s))).
Proof.
  intros (Hok & Hpl & Hph) Hc Hl Hrecv. unfold phase_inv in Hph. rewrite Hc in Hph.
  destruct Hph as ((Hb & Hr & Hall) & Hi & Hports & He).
  pose proof (Forall_lookup_1 _ _ _ _ Hok Hl) as Hokf.
  destruct (Hall _ _ Hl) as [Hold Hnew].
  assert (Hlen : (i < length (pfs s))%nat) by (eapply lookup_lt_Some; eauto).
  assert (Hf' : fwd_ok f' /\ pf f' = pf f /\ plain v /\
          ((i < base s)%nat -> f' = f) /\
          ((base s <= i)%nat -> both_open f' /\ delivered f' = [v])).
  { destruct (receive_inv _ _ _ _ Hrecv)
      as [(C & -> & ->)|(C & Hsend & Hs & Hd & C' & T' & P & P')].
    - split; [done|]. split; [done|]. split; [apply plain_None|]. split; [done|].
      intros Hge. destruct (Hnew Hge) as [[O _] _]. congruence.
    - split; [eauto using fwd_ok_step|]. split; [eauto using step_pf|].
      split; [destruct Hokf as (_ & Hv & _); auto|]. split.
      + intros Hlt. specialize (Hold Hlt). unfold bound in Hold. congruence.
      + intros Hge. destruct (Hnew Hge) as [[O1 O2] _].
        split; [split; congruence|].
        destruct Hokf as (_ & _ & Hd0). rewrite P in Hd0. rewrite Hd, Hd0. reflexivity. }
  destruct Hf' as (Hok' & Hpf & Hplain & Hlt & Hge).
  split; [|split].
  - change (Forall fwd_ok (<[i:=f']> (pfs s))). apply Forall_insert; done.
  - change (Forall plain (received s ++ [v])). apply Forall_app. split; [done|].
    repeat constructor; done.
  - unfold phase_inv. cbn [ctl set_ctl].
    change (pfs (set_ctl (ExposeWait (S i) (errors_Join [e; v]))
                   (set_received (received s ++ [v]) (set_pfs (<[i:=f']> (pfs s)) s))))
      with (<[i:=f']> (pfs s)).
    split; [|split; [|split]].
    + unfold expose_inv.
      change (pfs (set_ctl (ExposeWait (S i) (errors_Join [e; v]))
                     (set_received (received s ++ [v]) (set_pfs (<[i:=f']> (pfs s)) s))))
        with (<[i:=f']> (pfs s)).
      cbn [base received set_ctl set_received set_pfs].
      rewrite length_insert, length_app. split; [done|]. split; [simpl; lia|].
      intros j g Hg. apply list_lookup_insert_Some in Hg.
      destruct Hg as [(<- & <- & _)|[Hne Hg]].
      * split.
        -- intros Hj. rewrite (Hlt Hj). auto.
        -- intros Hj. destruct (Hge Hj) as [Ho Hd]. split; [done|]. split.
           ++ intros _. exists v. split; [|done].
              rewrite lookup_app_r by lia. rewrite Hr, Nat.sub_diag. reflexivity.
           ++ intros; lia.
      * destruct (Hall _ _ Hg) as [Ho Hn]. split; [done|].
        intros Hj. destruct (Hn Hj) as (O & D & P). split; [done|]. split.
        -- intros Hji. destruct D as (w & Hw & Hd); [lia|].
           exists w. split; [|done]. apply lookup_app_l_Some; done.
        -- intros Hji. apply P. lia.
    + rewrite length_insert. lia.
    + apply (ports_inv_go [] s i f f'); auto.
    + cbn [received set_ctl set_received]. rewrite join_all_snoc, He. reflexivity.
Qed.

Lemma callable_bound s :
  sys_inv s -> callable (ctl s) = true -> Forall bound (pfs s).
Proof.
  intros (Hok & _ & Hph) Hc. unfold phase_inv in Hph.
  destruct (ctl s) eqn:E; try discriminate; try exact Hph.
  destruct Hph as ((Hb & Hr & Hall) & _).
  apply Forall_lookup_2. intros j f Hj.
  destruct (Hall _ _ Hj) as [Hold Hnew].
  destruct (Nat.lt_ge_cases j (base s)) as [Hlt|Hge]; [auto|].
  destruct (Hnew Hge) as (_ & Hd & _).
  destruct Hd as (v & _ & Hd); [eapply lookup_lt_Some; eauto|].
  pose proof (Forall_lookup_1 _ _ _ _ Hok Hj) as (_ & _ & Hp).
  unfold bound. destruct (past_bind (fpc f)); [done|]. congruence.
Qed.

Lemma sys_inv_close s i f f' a p :
  sys_inv s -> Forall bound (pfs s) -> pfs s !! i = Some f ->
  Forward_step (ctx_done s) f a = Next f' ->
  (match p with ExposeLoop _ | ExposeWait _ _ | ExposeReturned _ => False | _ => True end) ->
  forall tr, sys_inv (set_ctl p (set_trace tr (set_pfs (<[i := f']> (pfs s)) s))).
Proof.
  intros (Hok & Hpl & _) Hb Hl Hs Hp tr.
  pose proof (Forall_lookup_1 _ _ _ _ Hok Hl) as Hokf.
  pose proof (Forall_lookup_1 _ _ _ _ Hb Hl) as Hbf.
  assert (Forall bound (<[i:=f']> (pfs s)))
    by (apply Forall_insert; eauto using bound_step).
  split; [|split].
  - unfold pfs; simpl. apply Forall_insert; eauto using fwd_ok_step.
  - exact Hpl.
  - unfold phase_inv; simpl. destruct p; try contradiction; exact H.
Qed.

Lemma sys_inv_ctl s r s' :
  sys_inv s -> ctl_step s r = Next s' -> sys_inv s'.
Proof.
  intros Hinv. pose proof Hinv as (Hok & Hpl & Hph).
  unfold ctl_step. destruct (ctl s) as [|todo|i e|e|i half| |r0] eqn:Hc; try discriminate.
  - destruct todo as [|p todo]; intros [= <-]; [|by apply sys_inv_spawn].
    unfold phase_inv in Hph. rewrite Hc in Hph. destruct Hph as [He Hp].
    split; [done|]. split; [done|]. unfold phase_inv; cbn [ctl set_ctl].
    split; [exact He|]. split; [apply Nat.le_0_l|]. split; [exact Hp|].
    destruct He as (_ & Hr & _). cbn [received set_ctl].
    destruct (received s); [reflexivity|discriminate].
  - destruct (pfs s !! i) as [f|] eqn:Hl.
    + destruct (receive (ctx_done s) f) as [[v f']| |] eqn:Hr; try discriminate.
      intros [= <-]. eapply sys_inv_receive; eauto.
    + intros [= <-]. unfold phase_inv in Hph. rewrite Hc in Hph.
      destruct Hph as (He & Hi & Hp & Hj).
      apply lookup_ge_None in Hl. assert (i = length (pfs s)) as -> by lia.
      split; [done|]. split; [done|]. unfold phase_inv; simpl. auto.
  - unfold phase_inv in Hph. rewrite Hc in Hph.
    destruct (pfs s !! i) as [f|] eqn:Hl.
    + destruct (Forward_step _ f _) as [f'| |] eqn:Hs; try discriminate.
      intros [= <-]. destruct half.
      * eapply (sys_inv_close s i f f' _ (TerminateLoop (S i) false)); eauto.
      * apply (sys_inv_close s i f f' _ (TerminateLoop i true) Hinv Hph Hl Hs I (trace s)).
    + intros [= <-]. split; [done|]. split; [done|]. exact Hph.
  - unfold phase_inv in Hph. rewrite Hc in Hph.
    intros [= <-]. split; [done|]. split; [done|]. exact Hph.
Qed.

Lemma sys_inv_step s a s' : sys_inv s -> step s a = Next s' -> sys_inv s'.
Proof.
  intros Hinv. destruct a as [ports| |r|i a|]; simpl.
  - destruct (callable (ctl s)) eqn:Hc; [|discriminate]. intros [= <-].
    pose proof (callable_bound _ Hinv Hc) as Hb. destruct Hinv as (Hok & _ & _).
    set (s1 := set_ctl (ExposeLoop ports) (set_call (length (pfs s)) ports s)).
    assert (E1 : pfs s1 = pfs s) by reflexivity.
    assert (E2 : base s1 = length (pfs s)) by reflexivity.
    assert (E3 : received s1 = []) by reflexivity.
    assert (E4 : requested s1 = ports) by reflexivity.
    split; [rewrite E1; done|]. split; [rewrite E3; constructor|].
    unfold phase_inv. change (ctl s1) with (ExposeLoop ports). split.
    + unfold expose_inv. rewrite E1, E2, E3. split; [done|]. split; [done|].
      intros j f Hj. split.
      * intros _. eapply Forall_lookup_1; eauto.
      * intros Hge. apply lookup_lt_Some in Hj. lia.
    + unfold ports_inv, structs. rewrite E1, E2, E4.
      rewrite drop_ge by (rewrite length_map; done). simpl. auto.
  - destruct (callable (ctl s)) eqn:Hc; [|discriminate]. intros [= <-].
    pose proof (callable_bound _ Hinv Hc) as Hb. destruct Hinv as (Hok & Hpl & _).
    split; [done|]. split; [done|]. exact Hb.
  - apply sys_inv_ctl; done.
  - apply sys_inv_go; done.
  - intros [= <-]. destruct Hinv as (Hok & Hpl & Hph).
    split; [done|]. split; [done|]. unfold phase_inv in *; simpl. exact Hph.
Qed.

Lemma sys_inv_run acts : forall s s',
  sys_inv s -> run s acts = Next s' -> sys_inv s'.
Proof.
  induction acts as [|a acts IH]; intros s s' Hinv; simpl.
  - intros [= <-]. done.
  - destruct (step s a) as [s1| |] eqn:Hs; try discriminate.
    eauto using sys_inv_step.
Qed.

Lemma sys_inv_fresh c p cfg : sys_inv (fresh c p cfg).
Proof. repeat split; constructor. Qed.

Lemma run_app s a1 a2 :
  Bridge.run s (a1 ++ a2) =
  match Bridge.run s a1 with
  | Next s' => Bridge.run s' a2
  | Panic m => Panic m
  | Stuck => Stuck
  end.
Proof.
  revert s; induction a1 as [|a a1 IH]; intros s; simpl; [done|].
  destruct (step s a); auto.
Qed.


Lemma spawn_all todo : forall s,
  ctl s = ExposeLoop todo ->
  exists s', Bridge.run s (repeat (Ctl None) (S (length todo))) = Next s' /\
    ctl s' = ExposeWait 0 None /\
    pfs s' = pfs s ++ map (fresh_fwd s) todo /\
    requested s' = requested s /\ base s' = base s /\ received s' = received s.
Proof.
  induction todo as [|p todo IH]; intros s Hc; simpl.
  - unfold ctl_step. rewrite Hc. eexists; split; [reflexivity|].
    simpl. rewrite app_nil_r. auto.
  - unfold ctl_step at 1. rewrite Hc.
    destruct (IH (set_ctl (ExposeLoop todo) (spawn s p)) eq_refl)
      as (s' & Hr & H1 & H2 & H3 & H4 & H5).
    exists s'. split; [exact Hr|]. split; [done|]. split; [|done].
    rewrite H2. unfold spawn, pfs; simpl. rewrite <- app_assoc. reflexivity.
Qed.

Lemma run_answer s i e f b :
  ctl s = ExposeWait i e -> pfs s !! i = Some f ->
  fpc f = FDial -> connectionCreated f = ChOpen ->
  exists f',
    Bridge.run s (answer_acts i b) =
    Next (set_ctl (ExposeWait (S i) (errors_Join [e; outcome_of b]))
            (set_received (received s ++ [outcome_of b])
               (set_pfs (<[i := f']> (pfs s)) s))).
Proof.
  intros Hc Hl Hpc Hcc.
  assert (Hlt : (i < length (pfs s))%nat) by (eapply lookup_lt_Some; eauto).
  destruct s as [[dc po cfg l] cx ct ba rq rc tr]; unfold pfs in *; simpl in *.
  destruct f as [p cc tc pc dl cl li ts]; simpl in *. subst.
  destruct b as [e0|e0|]; simpl; unfold go_step, ctl_step, pfs; simpl;
    rewrite Hl; simpl;
    repeat (rewrite ?list_lookup_insert_eq by (rewrite ?length_insert; done); simpl);
    rewrite ?list_insert_insert_eq; eexists; reflexivity.
Qed.
End BridgeFacts3.

Section BridgeFacts4.
Import Forwarder Bridge BridgeInv.

Lemma wait_all bs : forall s i e,
  ctl s = ExposeWait i e ->
  (forall k, (k < length bs)%nat ->
     exists f, pfs s !! (i + k)%nat = Some f /\ fpc f = FDial /\ connectionCreated f = ChOpen) ->
  exists s', Bridge.run s (schedule i bs) = Next s' /\
    ctl s' = ExposeWait (i + length bs) (fold_left (fun e v => errors_Join [e; v]) (map outcome_of bs) e) /\
    length (pfs s') = length (pfs s) /\
    requested s' = requested s /\ base s' = base s.
Proof.
  induction bs as [|b bs IH]; intros s i e Hc Hall; simpl.
  - exists s. rewrite Nat.add_0_r. auto.
  - destruct (Hall 0%nat) as (f & Hl & Hpc & Hcc); [simpl; lia|].
    rewrite Nat.add_0_r in Hl.
    destruct (run_answer s i e f b Hc Hl Hpc Hcc) as (f' & Hr).
    rewrite run_app, Hr.
    match goal with |- context [Bridge.run ?s1 (schedule _ _)] =>
      destruct (IH s1 (S i) (errors_Join [e; outcome_of b]) eq_refl) as (s' & Hr' & H1 & H2 & H3 & H4)
    end.
    + intros k Hk. destruct (Hall (S k)) as (g & Hg & Hgp & Hgc); [simpl; lia|].
      exists g. split; [|done]. rewrite <- Hg.
      replace (S i + k)%nat with (i + S k)%nat by lia.
      unfold pfs; cbn [sshd portForwarders set_ctl set_received set_pfs].
      apply list_lookup_insert_ne. lia.
    + exists s'. split; [exact Hr'|]. split.
      * rewrite H1. f_equal. lia.
      * unfold pfs in *; simpl in *. rewrite length_insert in H2. auto.
Qed.

Lemma expose_returns c p cfg ports bs :
  length bs = length ports ->
  exists s, Bridge.run (fresh c p cfg) (expose_schedule ports bs) = Next s /\
    ctl s = ExposeReturned (join_all (map outcome_of bs)) /\
    requested s = ports /\ base s = 0%nat /\ length (pfs s) = length ports.
Proof.
  intros Hlen. unfold expose_schedule.
  change (Bridge.run (fresh c p cfg) (Call_exposeHostPort ports :: ?l))
    with (Bridge.run (set_ctl (ExposeLoop ports) (set_call 0 ports (fresh c p cfg))) l).
  set (s1 := set_ctl (ExposeLoop ports) (set_call 0 ports (fresh c p cfg))).
  destruct (spawn_all ports s1 eq_refl) as (s2 & Hr2 & Hc2 & Hp2 & Hq2 & Hb2 & _).
  rewrite run_app, Hr2.
  destruct (wait_all bs s2 0%nat None Hc2) as (s3 & Hr3 & Hc3 & Hl3 & Hq3 & Hb3).
  { intros k Hk. rewrite Hp2. simpl.
    destruct (lookup_lt_is_Some_2 ports k) as [q Hq]; [lia|].
    exists (fresh_fwd s1 q). rewrite list_lookup_fmap, Hq. auto. }
  rewrite run_app, Hr3.
  assert (Hlen3 : length (pfs s3) = length ports)
    by (rewrite Hl3, Hp2; simpl; rewrite length_map; done).
  assert (Hnone : pfs s3 !! (0 + length bs)%nat = None)
    by (apply lookup_ge_None; lia).
  cbn [Bridge.run step]. unfold ctl_step. rewrite Hc3, Hnone.
  eexists. split; [reflexivity|].
  cbn [ctl requested base pfs sshd portForwarders set_ctl].
  split; [reflexivity|]. split; [rewrite Hq3, Hq2; reflexivity|].
  split; [rewrite Hb3, Hb2; reflexivity|]. exact Hlen3.
Qed.

Lemma reported_errors_Join e v : reported (errors_Join [e; v]) = reported e ++ reported v.
Proof.
  destruct e as [e|], v as [v|]; simpl; rewrite ?app_nil_r; reflexivity.
Qed.

Lemma reported_join_all vs :
  Forall plain vs -> reported (join_all vs) = omap id vs.
Proof.
  induction vs as [|v vs IH] using rev_ind; intros Hp; [reflexivity|].
  apply Forall_app in Hp. destruct Hp as [Hvs Hv].
  rewrite join_all_snoc, reported_errors_Join, IH, omap_app by done.
  f_equal. apply Forall_inv in Hv. unfold plain in Hv. rewrite Hv.
  destruct v; reflexivity.
Qed.

(** C1. Whenever a call of [exposeHostPort] has returned, the collection
    holds, from the index it had when the call began, one forwarder for each
    requested port, with equal remote and local port; the call has received
    one value from every forwarder of the collection, and for every
    forwarder it created that value is the one outcome this forwarder has
    delivered; none of them has a closed channel, so none was closed or
    rolled back; the returned error is the join of all received values and
    stands for exactly the non-nil ones, in order.  On a fresh controller
    the call does return, whatever the answers to the bind attempts are,
    with the join of all outcomes. *)
Theorem exposeHostPort_collects_every_outcome :
  (forall c p cfg acts s e,
     Bridge.run (fresh c p cfg) acts = Next s -> ctl s = ExposeReturned e ->
     map (fun f => remotePort (pf f)) (drop (base s) (pfs s)) = requested s /\
     map (fun f => localPort (pf f)) (drop (base s) (pfs s)) = requested s /\
     length (received s) = length (pfs s) /\
     (forall j f, pfs s !! j = Some f -> (base s <= j)%nat ->
        exists v, received s !! j = Some v /\ delivered f = [v] /\ both_open f) /\
     e = join_all (received s) /\
     reported e = omap id (received s)) /\
  (forall c p cfg ports bs,
     length bs = length ports ->
     exists s, Bridge.run (fresh c p cfg) (expose_schedule ports bs) = Next s /\
       ctl s = ExposeReturned (join_all (map outcome_of bs)) /\
       requested s = ports /\ base s = 0%nat /\ length (pfs s) = length ports).
Proof.
  split; [|apply expose_returns].
  intros c p cfg acts s e Hrun Hc.
  pose proof (sys_inv_run _ _ _ (sys_inv_fresh c p cfg) Hrun) as (Hok & Hpl & Hph).
  unfold phase_inv in Hph. rewrite Hc in Hph.
  destruct Hph as ((Hb & Hr & Hall) & (Hreq & Hloc) & He).
  rewrite app_nil_r in Hreq. unfold structs in *.
  rewrite List.skipn_map in Hreq, Hloc. rewrite List.map_map in Hreq.
  apply List.Forall_map in Hloc.
  split; [symmetry; exact Hreq|].
  split; [rewrite Hreq; apply List.map_ext_Forall; exact Hloc|].
  split; [exact Hr|].
  split; [|split; [exact He|rewrite He; apply reported_join_all; exact Hpl]].
  intros j f Hj Hge. destruct (Hall _ _ Hj) as [_ Hn].
  destruct (Hn Hge) as (Ho & Hd & _).
  destruct Hd as (v & Hv & Hd); [eapply lookup_lt_Some; eauto|]. eauto.
Qed.
End BridgeFacts4.

Section TermFacts.
Import Forwarder Bridge BridgeInv TerminateInv.


Lemma close_terminate_open c f :
  terminateChan f = ChOpen ->
  Forward_step c f ACloseTerminate = Next (set_terminateChan ChClosed f).
Proof.
  intros H. destruct f as [p cc tc pc dl cl li ts]; simpl in *. subst.
  destruct pc; reflexivity.
Qed.

Lemma close_created_open c f :
  connectionCreated f = ChOpen ->
  Forward_step c f ACloseCreated = Next (set_connectionCreated ChClosed f).
Proof.
  intros H. destruct f as [p cc tc pc dl cl li ts]; simpl in *. subst.
  destruct pc; reflexivity.
Qed.








End TermFacts.

Section RelayClaims.
Import Tunnel TunnelInv Forwarder.

Lemma tunnel_step_frame c f k a :
  (forall m, Forward_step c f (ATunnel k a) <> Panic m) /\
  (forall f', Forward_step c f (ATunnel k a) = Next f' ->
     fpc f' = fpc f /\ delivered f' = delivered f /\
     connectionCreated f' = connectionCreated f /\
     terminateChan f' = terminateChan f /\
     client f' = client f /\ listener f' = listener f /\
     length (tunnels f') = length (tunnels f) /\
     forall j, j <> k -> tunnels f' !! j = tunnels f !! j).
Proof.
  assert (E : Forward_step c f (ATunnel k a) =
              match tunnels f !! k with
              | Some t =>
                  match runTunnel_step t a with
                  | Some t' => Next (set_tunnels (<[k := t']> (tunnels f)) f)
                  | None => Stuck
                  end
              | None => Stuck
              end)
    by (unfold Forward_step; destruct (fpc f); reflexivity).
  rewrite E. destruct (tunnels f !! k) as [t|]; [|split; discriminate].
  destruct (runTunnel_step t a) as [t'|]; [|split; discriminate].
  split; [discriminate|]. intros f' [= <-]. cbn.
  rewrite length_insert. repeat split; try reflexivity.
  intros j Hj. apply list_lookup_insert_ne. congruence.
Qed.

(** C7. For every connection accepted on the bridge side: when the dial of
    the local port fails, the only thing [runTunnel] still does is close the
    accepted connection, after which it has returned and nothing of it can
    run; no statement of a relay changes its forwarder's program point,
    delivered outcome, channels, client or listener, or another relay, and
    none can panic; when the dial succeeds, a connection is closed only
    after a copy direction has finished, a relay that has returned has
    closed both connections, and once either direction has finished (with
    or without an error) the statements of [runTunnel] and of that
    direction alone close both connections. *)
Theorem runTunnel_closes_both_ends :
  (forall e, exists t1 t2,
     runTunnel_step accepted (TDialLocal (Some e)) = Some t1 /\
     (forall a t, runTunnel_step t1 a = Some t -> a = TRun /\ t = t2) /\
     runTunnel_step t1 TRun = Some t2 /\
     remote t2 = Closed /\ local t2 = NoConn /\ pc t2 = RtReturned /\
     (forall a, runTunnel_step t2 a = None)) /\
  (forall c f k a,
     (forall m, Forward_step c f (ATunnel k a) <> Panic m) /\
     (forall f', Forward_step c f (ATunnel k a) = Next f' ->
        fpc f' = fpc f /\ delivered f' = delivered f /\
        connectionCreated f' = connectionCreated f /\
        terminateChan f' = terminateChan f /\
        client f' = client f /\ listener f' = listener f /\
        length (tunnels f') = length (tunnels f) /\
        forall j, j <> k -> tunnels f' !! j = tunnels f !! j)) /\
  (forall acts t,
     Tunnel.run accepted (TDialLocal None :: acts) = Some t ->
     (remote t = Closed \/ local t = Closed ->
      finished (copy_in t) || finished (copy_out t) = true) /\
     (pc t = RtReturned -> remote t = Closed /\ local t = Closed) /\
     (forall d, finished (get_copy d t) = true ->
        exists acts' t', Forall (own_or d) acts' /\ Tunnel.run t acts' = Some t' /\
          pc t' = RtReturned /\ remote t' = Closed /\ local t' = Closed)).
Proof.
  split; [|split].
  - intros e. eexists. eexists. split; [reflexivity|].
    split; [|split; [reflexivity|]].
    + intros a t. destruct a as [[?|]| |[] ?|[]]; simpl; try discriminate.
      intros [= <-]. auto.
    + simpl. repeat split; try reflexivity.
      intros a. destruct a as [[?|]| |[] ?|[]]; reflexivity.
  - apply tunnel_step_frame.
  - intros acts t Hrun.
    assert (Hrel : relaying t).
    { simpl in Hrun. eapply relaying_run; [|exact Hrun].
      unfold relaying; simpl. auto. }
    destruct (relaying_closed t Hrel) as [H1 H2].
    split; [exact H1|]. split; [exact H2|].
    intros d Hd. apply relaying_winds_up; assumption.
Qed.

Lemma runTunnel_closes_both_ends_witness :
  exists t,
    Tunnel.run accepted
      [TDialLocal None; TRun; TRun; TCopyEnds Out_ (Some (ErrNew "connection reset"));
       TSignal Out_; TRun; TRun; TRun] = Some t /\
    (pc t = RtReturned -> remote t = Closed /\ local t = Closed).
Proof.
  eexists. split; [reflexivity|].
  apply (proj2 (proj2 runTunnel_closes_both_ends)
           [TRun; TRun; TCopyEnds Out_ (Some (ErrNew "connection reset"));
            TSignal Out_; TRun; TRun; TRun] _ eq_refl).
Defined.
End RelayClaims.

Section ForwardClaims.
Import Forwarder ForwarderInv.












End ForwardClaims.

Section CloseClaims.
Import Forwarder ForwarderInv.




Lemma select_default_blocked s :
  fpc (fwd s) = FSelect -> signalled s ->
  process_step s (PStep (ASelect CaseDefault)) = Stuck.
Proof.
  destruct s as [c f]. destruct f as [p cc tc pc dl cl li ts]. simpl.
  intros -> [H|H]; simpl in H; subst; simpl; [reflexivity|].
  destruct c; reflexivity.
Qed.

Lemma cancelled_returns s :
  fpc (fwd s) = FSelect -> signalled s ->
  exists c s',
    run s [PStep (ASelect c); PStep (ACloseListener None); PStep (ACloseClient None);
           PStep (ACloseListener None); PStep (ACloseClient None)] = Next s' /\
    fpc (fwd s') = FReturned None.
Proof.
  destruct s as [c f]. destruct f as [p cc tc pc dl cl li ts]. simpl.
  intros -> [H|H]; simpl in H; subst.
  - exists CaseCtxDone. eexists. split; reflexivity.
  - exists CaseTerminate. eexists. split; reflexivity.
Qed.

(** C8 (as stated, refuted). The listener is bound, the context is
    cancelled before the select, and the close of the listener fails:
    [Forward] returns that error instead of nil. *)
Lemma Forward_cancelled_close_fails :
  exists s s',
    run (start "localhost:32768" None 8080 8080)
      [PStep (ADial None); PStep (AListen None); PStep ASend; PCancel] = Next s /\
    fpc (fwd s) = FSelect /\ ctx_done s = true /\
    run s [PStep (ASelect CaseCtxDone); PStep (ACloseListener (Some (ErrNew "EOF")));
           PStep (ACloseListener None); PStep (ACloseClient None)] = Next s' /\
    fpc (fwd s') = FReturned (Some (ErrWrap "error closing listener" (ErrNew "EOF"))).
Proof. eexists. eexists. repeat split; reflexivity. Qed.

(** C8 (amended). When [Forward] reaches its select with the context
    cancelled or [terminateChan] closed, the default case cannot be taken and
    the accept loop is never entered; whenever [Forward] has returned, the
    listener and the client are closed and the returned value is the one the
    two explicit closes determine: nil if both returned nil, otherwise the
    wrapped error of the first that failed.  A run to the nil return exists. *)
Theorem Forward_cancelled_before_accept s :
  fpc (fwd s) = FSelect -> signalled s ->
  process_step s (PStep (ASelect CaseDefault)) = Stuck /\
  (forall acts s', run s acts = Next s' ->
     fpc (fwd s') <> FAccept /\
     (forall ret, fpc (fwd s') = FReturned ret ->
        closing_result acts = Some ret /\
        listener (fwd s') = Closed /\ client (fwd s') = Closed)) /\
  (exists acts s', run s acts = Next s' /\ fpc (fwd s') = FReturned None /\
     closing_result acts = Some None).
Proof.
  intros Hpc Hsig. split; [apply select_default_blocked; assumption|]. split.
  - intros acts s' Hrun.
    destruct (cancel_inv_run _ _ _ Hpc Hsig Hrun) as [_ Hinv].
    unfold cancel_inv in Hinv. split.
    + intros E. rewrite E in Hinv. exact Hinv.
    + intros ret E. rewrite E in Hinv. exact Hinv.
  - destruct (cancelled_returns s Hpc Hsig) as (c & s' & Hrun & Hret).
    eexists. exists s'. split; [exact Hrun|]. split; [exact Hret|].
    destruct c; reflexivity.
Qed.

Lemma Forward_cancelled_before_accept_witness :
  exists s,
    run (start "localhost:32768" None 8080 8080)
      [PStep (ADial None); PStep (AListen None); PStep ASend; PCancel] = Next s /\
    process_step s (PStep (ASelect CaseDefault)) = Stuck.
Proof.
  eexists. split; [reflexivity|].
  apply Forward_cancelled_before_accept; [reflexivity|left; reflexivity].
Defined.
End CloseClaims.

Section BridgeClaims.
Import Forwarder Bridge BridgeInv TerminateInv.

Lemma exposeHostPort_collects_every_outcome_witness :
  exists s e,
    Bridge.run (fresh (mkDockerContainer "sshd") "32768" None)
      (expose_schedule [8080; 9090]%Z [DialFails (ErrNew "refused"); Binds]) = Next s /\
    ctl s = ExposeReturned e /\
    reported e = omap id (received s).
Proof.
  eexists. eexists.
  split; [vm_compute; reflexivity|]. split; [vm_compute; reflexivity|].
  refine (proj2 (proj2 (proj2 (proj2 (proj2
            (proj1 exposeHostPort_collects_every_outcome
               (mkDockerContainer "sshd") "32768" None
               (expose_schedule [8080; 9090]%Z [DialFails (ErrNew "refused"); Binds])
               _ _ _ _)))))).
  - vm_compute; reflexivity.
  - vm_compute; reflexivity.
Defined.





End BridgeClaims.

Section OrchestratorClaims.
Import Orchestrator OrchestratorSpec.

Lemma exposeHostPorts_nonempty pw G N M C req p w :
  p <> [] ->
  exposeHostPorts pw G N M C req p w =
  match bridge_options G (Networks req) with
  | Err e => ((no_hooks, Some e), req, w)
  | Ok opts =>
      match newSshdContainer pw N M opts w with
      | (Failed e, w) | (Partial _ e, w) =>
          ((no_hooks, Some (ErrWrap "failed to create the SSH server" e)), req, w)
      | (Ready sshdContainer, w) =>
          match C (Bridge.container sshdContainer) with
          | Err e =>
              ((no_hooks, Some (ErrWrap "failed to get IP for the SSHD container" e)),
               req, w)
          | Ok sshdIP =>
              ((mkHooks [PostReadyHook (length (bridges w))]
                  [PreTerminateHook (length (bridges w))], None),
               set_HostConfigModifier
                 (Some (exposeHostModifier sshdIP (sshdFirstNetwork (Networks req))
                          (original_modifier req))) req,
               mkWorld (created w)
                 (bridges w ++ [Bridge.mkSystem sshdContainer false Bridge.Idle 0 [] [] []]))
          end
      end
  end.
Proof.
  intros Hp. unfold exposeHostPorts, bridge_options, original_modifier.
  destruct p as [|p0 p]; [congruence|]. reflexivity.
Qed.

Lemma newSshdContainer_unfold pw N M opts w :
  newSshdContainer pw N M opts w =
  match customize opts (sshd_request pw) with
  | Err e => (Failed e, w)
  | Ok breq =>
      match N (length (created w)) breq with
      | Err e => (Failed e, w)
      | Ok dc =>
          match M dc sshPort with
          | Err e =>
              (Partial (Bridge.mkSshd dc "" None []) e,
               mkWorld (created w ++ [(breq, dc)]) (bridges w))
          | Ok mapped =>
              (Ready (Bridge.sshd (new_bridge dc mapped pw)),
               mkWorld (created w ++ [(breq, dc)]) (bridges w))
          end
      end
  end.
Proof.
  unfold newSshdContainer, configureSSHConfig, sshd_request.
  destruct (customize opts _) as [breq|e]; [|reflexivity].
  destruct (N (length (created w)) breq) as [dc|e]; [|reflexivity].
  cbn [Bridge.container]. destruct (M dc sshPort) as [mapped|e]; reflexivity.
Qed.

Lemma exposeHostPorts_success pw G N M C req p w hooks req' w' :
  exposeHostPorts pw G N M C req p w = ((hooks, None), req', w') ->
  p <> [] /\
  exists opts breq dc mapped ip,
    bridge_options G (Networks req) = Ok opts /\
    customize opts (sshd_request pw) = Ok breq /\
    N (length (created w)) breq = Ok dc /\
    M dc sshPort = Ok mapped /\ C dc = Ok ip /\
    hooks = mkHooks [PostReadyHook (length (bridges w))]
              [PreTerminateHook (length (bridges w))] /\
    req' = set_HostConfigModifier
             (Some (exposeHostModifier ip (sshdFirstNetwork (Networks req))
                      (original_modifier req))) req /\
    w' = mkWorld (created w ++ [(breq, dc)]) (bridges w ++ [new_bridge dc mapped pw]).
Proof.
  intros H.
  assert (Hp : p <> []) by (intros ->; discriminate H).
  split; [exact Hp|].
  rewrite (exposeHostPorts_nonempty _ _ _ _ _ _ _ _ Hp) in H.
  destruct (bridge_options G (Networks req)) as [opts|e] eqn:E1; [|discriminate H].
  rewrite newSshdContainer_unfold in H.
  destruct (customize opts (sshd_request pw)) as [breq|e] eqn:E2; [|discriminate H].
  destruct (N (length (created w)) breq) as [dc|e] eqn:E3; [|discriminate H].
  destruct (M dc sshPort) as [mapped|e] eqn:E4; [|discriminate H].
  cbn [Bridge.container Bridge.sshd new_bridge] in H.
  destruct (C dc) as [ip|e] eqn:E5; [|discriminate H].
  injection H as <- <- <-.
  exists opts, breq, dc, mapped, ip. repeat split; auto.
Qed.

Lemma bridge_options_env G networks opts r breq :
  bridge_options G networks = Ok opts -> customize opts r = Ok breq ->
  Env breq = Env r /\ Image breq = Image r /\
  HostAccessPorts breq = HostAccessPorts r /\ ExposedPorts breq = ExposedPorts r.
Proof.
  unfold bridge_options. destruct (Nat.ltb 0 (length networks)).
  - destruct (G (sshdFirstNetwork networks)) as [nw|e]; [|discriminate].
    intros [= <-]. cbn. intros [= <-]. auto.
  - intros [= <-]. cbn. intros [= <-]. auto.
Qed.
End OrchestratorClaims.

Section OrchestratorClaims2.
Import Orchestrator OrchestratorSpec.

(** C5 (as stated, refuted). With the default network listed twice before
    another one, the first non-default network is the third entry, but the
    bridge is given the second entry, the default network. *)
Lemma sshdFirstNetwork_takes_default_at_index_1 :
  first_non_default ["bridge"; "bridge"; "mynet"] = Some "mynet" /\
  sshdFirstNetwork ["bridge"; "bridge"; "mynet"] = "bridge".
Proof. split; reflexivity. Qed.

(** C5 (amended). For a non-empty network list the bridge is given the
    first entry, unless that entry is the default network and there is a
    second entry, which is then taken whatever it is.  So the choice is
    always one of the first two entries; it is the first non-default
    network whenever one of the first two entries is non-default, and the
    default network otherwise, also when a non-default network comes
    later. *)
Theorem sshdFirstNetwork_policy (networks : list string) :
  networks <> [] ->
  (forall n0 rest, networks = n0 :: rest ->
     (n0 <> "bridge" -> sshdFirstNetwork networks = n0) /\
     (n0 = "bridge" -> rest = [] -> sshdFirstNetwork networks = "bridge") /\
     (n0 = "bridge" -> forall n1 rest', rest = n1 :: rest' ->
        sshdFirstNetwork networks = n1)) /\
  In (sshdFirstNetwork networks) (take 2 networks) /\
  (forall n, first_non_default (take 2 networks) = Some n ->
     sshdFirstNetwork networks = n) /\
  (first_non_default (take 2 networks) = None ->
     sshdFirstNetwork networks = "bridge").
Proof.
  intros Hne. destruct networks as [|n0 rest]; [congruence|]. clear Hne.
  assert (Hbridge : n0 = "bridge" ->
            sshdFirstNetwork (n0 :: rest) =
            match rest with [] => "bridge" | n1 :: _ => n1 end).
  { intros ->. destruct rest; reflexivity. }
  assert (Hother : n0 <> "bridge" -> sshdFirstNetwork (n0 :: rest) = n0).
  { intros Hn. apply String.eqb_neq in Hn. unfold sshdFirstNetwork. cbn.
    rewrite Hn. reflexivity. }
  split; [|split; [|split]].
  - intros n0' rest' [= <- <-]. split; [exact Hother|]. split.
    + intros E ->. rewrite (Hbridge E). reflexivity.
    + intros E n1 rest' ->. rewrite (Hbridge E). reflexivity.
  - destruct (String.eqb_spec n0 "bridge") as [E|E].
    + rewrite (Hbridge E). destruct rest; cbn; auto.
    + rewrite (Hother E). destruct rest; cbn; auto.
  - intros n. unfold first_non_default.
    destruct (String.eqb_spec n0 "bridge") as [E|E].
    + rewrite (Hbridge E). subst n0. destruct rest as [|n1 rest']; cbn; [discriminate|].
      rewrite take_0. destruct (String.eqb_spec n1 "bridge"); cbn; congruence.
    + rewrite (Hother E). apply String.eqb_neq in E.
      destruct rest; cbn; rewrite E; cbn; congruence.
  - unfold first_non_default.
    destruct (String.eqb_spec n0 "bridge") as [E|E].
    + rewrite (Hbridge E). subst n0. destruct rest as [|n1 rest']; cbn; [reflexivity|].
      rewrite take_0. destruct (String.eqb_spec n1 "bridge"); cbn; congruence.
    + apply String.eqb_neq in E.
      destruct rest; cbn; rewrite E; cbn; discriminate.
Qed.

Lemma sshdFirstNetwork_policy_witness :
  ["bridge"; "mynet"] <> [] /\
  sshdFirstNetwork ["bridge"; "mynet"] = "mynet".
Proof.
  split; [discriminate|].
  apply (sshdFirstNetwork_policy ["bridge"; "mynet"]); [discriminate|reflexivity].
Defined.
End OrchestratorClaims2.

Section OrchestratorClaims3.
Import Orchestrator OrchestratorSpec.

Lemma bridge_has_process_secret pw G N M C req p w hooks req' w' :
  exposeHostPorts pw G N M C req p w = ((hooks, None), req', w') ->
  exists breq dc b cfg,
    created w' = created w ++ [(breq, dc)] /\
    container_secret (breq, dc) = Some pw /\
    bridges w' = bridges w ++ [b] /\
    Bridge.container (Bridge.sshd b) = dc /\
    Bridge.sshConfig (Bridge.sshd b) = Some cfg /\
    session_secrets cfg = [pw].
Proof.
  intros H. destruct (exposeHostPorts_success _ _ _ _ _ _ _ _ _ _ _ H)
    as (_ & opts & breq & dc & mapped & ip & E1 & E2 & E3 & E4 & E5 & _ & _ & ->).
  destruct (bridge_options_env _ _ _ _ _ E1 E2) as (HEnv & _).
  exists breq, dc, (new_bridge dc mapped pw). eexists.
  split; [reflexivity|]. split.
  - unfold container_secret. cbn [fst]. rewrite HEnv. cbn [Env sshd_request].
    apply lookup_singleton_eq.
  - repeat split; reflexivity.
Qed.

(** C6 (as stated, refuted). Two bridges provisioned one after the other in
    one process are two containers with different identifiers, and both got
    the same password. *)
Lemma two_bridges_share_the_secret :
  exists hooks1 req1 w1 hooks2 req2 w2 c1 c2,
    exposeHostPorts "7c9e6679" lookup_ok new_ok mapped_ok ip_ok
      (caller_request ["net-a"] [8080%Z]) [8080%Z] empty_world
      = ((hooks1, None), req1, w1) /\
    exposeHostPorts "7c9e6679" lookup_ok new_ok mapped_ok ip_ok
      (caller_request ["net-b"] [9090%Z]) [9090%Z] w1
      = ((hooks2, None), req2, w2) /\
    created w2 = [c1; c2] /\ snd c1 <> snd c2 /\
    container_secret c1 = Some "7c9e6679" /\
    container_secret c2 = Some "7c9e6679".
Proof.
  do 8 eexists.
  split; [reflexivity|]. split; [reflexivity|]. split; [reflexivity|].
  split; [discriminate|]. split; apply lookup_singleton_eq.
Qed.

(** C6 (amended). The secret is the one value the process holds: every
    bridge that [exposeHostPorts] provisions, whatever the caller's request,
    the ports and the containers made before, is a container whose
    [PASSWORD] is that value and a tunnel session that authenticates with
    that value.  All bridges of a process therefore share one secret. *)
Theorem bridge_secret_is_process_wide :
  forall pw G N M C,
  (forall req p w hooks req' w',
     exposeHostPorts pw G N M C req p w = ((hooks, None), req', w') ->
     exists breq dc b cfg,
       created w' = created w ++ [(breq, dc)] /\
       container_secret (breq, dc) = Some pw /\
       bridges w' = bridges w ++ [b] /\
       Bridge.container (Bridge.sshd b) = dc /\
       Bridge.sshConfig (Bridge.sshd b) = Some cfg /\
       session_secrets cfg = [pw]) /\
  (forall sshdC sshdC' cfg,
     configureSSHConfig pw M sshdC = (sshdC', Ok cfg) ->
     session_secrets cfg = [pw] /\ User cfg = user /\
     HostKeyCallback_ cfg = InsecureIgnoreHostKey /\ Timeout cfg = 30%Z).
Proof.
  intros pw G N M C. split.
  - intros req p w hooks req' w'. apply bridge_has_process_secret.
  - intros sshdC sshdC' cfg. unfold configureSSHConfig.
    destruct (M (Bridge.container sshdC) sshPort); [|discriminate].
    intros [= <- <-]. repeat split.
Qed.

Lemma bridge_secret_is_process_wide_witness :
  exists breq dc b cfg,
    created (mkWorld [(sshd_request "7c9e6679", mkDockerContainer "sshd-0")]
               [new_bridge (mkDockerContainer "sshd-0") "32768" "7c9e6679"])
      = created empty_world ++ [(breq, dc)] /\
    container_secret (breq, dc) = Some "7c9e6679" /\
    bridges (mkWorld [(sshd_request "7c9e6679", mkDockerContainer "sshd-0")]
               [new_bridge (mkDockerContainer "sshd-0") "32768" "7c9e6679"])
      = bridges empty_world ++ [b] /\
    Bridge.container (Bridge.sshd b) = dc /\
    Bridge.sshConfig (Bridge.sshd b) = Some cfg /\
    session_secrets cfg = [ "7c9e6679" ].
Proof.
  apply (proj1 (bridge_secret_is_process_wide "7c9e6679" lookup_ok new_ok mapped_ok ip_ok)
           (caller_request [] [8080%Z]) [8080%Z] empty_world
           (mkHooks [PostReadyHook 0] [PreTerminateHook 0])
           (set_HostConfigModifier
              (Some (exposeHostModifier "172.17.0.2" ""
                       (original_modifier (caller_request [] [8080%Z]))))
              (caller_request [] [8080%Z]))).
  reflexivity.
Defined.

(** C9. With no port, [exposeHostPorts] returns the error "no ports to
    expose" and no hook, whatever the collaborators would answer; the
    caller's request comes back as it was, and the process has no new
    container and no new controller. *)
Theorem exposeHostPorts_rejects_no_ports pw G N M C req w :
  exists hooks,
    exposeHostPorts pw G N M C req [] w =
      ((hooks, Some (ErrNew "no ports to expose")), req, w) /\
    PostReadies hooks = [] /\ PreTerminates hooks = [].
Proof. exists no_hooks. repeat split. Qed.
End OrchestratorClaims3.

Section HookClaims.
Import Forwarder Orchestrator OrchestratorSpec BridgeInv.

Lemma fresh_ports s ports :
  map (fun f => remotePort (pf f)) (map (fresh_fwd s) ports) = ports /\
  map (fun f => localPort (pf f)) (map (fresh_fwd s) ports) = ports.
Proof.
  rewrite !List.map_map. cbn. split; apply List.map_id.
Qed.

Lemma post_ready_exposes pw dc mapped (l : list Bridge.system) w req_now :
  bridges w = l ++ [new_bridge dc mapped pw] ->
  exists w2 s1 s2,
    invoke (PostReadyHook (length l)) req_now w = Next w2 /\
    bridges w2 !! length l = Some s1 /\
    Bridge.run s1 (repeat (Bridge.Ctl None) (S (length (HostAccessPorts req_now))))
      = Next s2 /\
    Bridge.ctl s2 = Bridge.ExposeWait 0 None /\
    map (fun f => remotePort (pf f)) (Bridge.pfs s2) = HostAccessPorts req_now /\
    map (fun f => localPort (pf f)) (Bridge.pfs s2) = HostAccessPorts req_now.
Proof.
  intros Hb. unfold invoke, hook_call.
  assert (Hl : bridges w !! length l = Some (new_bridge dc mapped pw))
    by (rewrite Hb; apply list_lookup_middle; reflexivity).
  rewrite Hl. cbn [Bridge.step Bridge.callable Bridge.ctl new_bridge].
  set (s1 := Bridge.set_ctl _ _).
  destruct (spawn_all (HostAccessPorts req_now) s1 eq_refl)
    as (s2 & Hr & Hc & Hp & _).
  eexists. exists s1, s2. split; [reflexivity|]. split.
  - cbn [bridges]. apply list_lookup_insert_eq. eapply lookup_lt_Some; eauto.
  - split; [exact Hr|]. split; [exact Hc|]. rewrite Hp. apply fresh_ports.
Qed.

(** C10. The port list [p] only decides whether [exposeHostPorts] rejects
    the call: two non-empty lists give the same result.  After a successful
    call the post-ready hook, run with the caller's request as it is at that
    moment, makes the controller set up one forwarder for each port in
    [HostAccessPorts] of that request, with equal remote and local port, and
    no other.  For a caller who passes port 8080 while the request lists
    9090, the port exposed is 9090. *)
Theorem post_ready_hook_reads_the_request :
  (forall pw G N M C req p p' w,
     p <> [] -> p' <> [] ->
     exposeHostPorts pw G N M C req p w = exposeHostPorts pw G N M C req p' w) /\
  (forall pw G N M C req p w hooks req' w',
     exposeHostPorts pw G N M C req p w = ((hooks, None), req', w') ->
     exists b,
       PostReadies hooks = [PostReadyHook b] /\
       PreTerminates hooks = [PreTerminateHook b] /\
       HostAccessPorts req' = HostAccessPorts req /\
       forall req_now, exists w2 s1 s2,
         invoke (PostReadyHook b) req_now w' = Next w2 /\
         bridges w2 !! b = Some s1 /\
         Bridge.run s1 (repeat (Bridge.Ctl None) (S (length (HostAccessPorts req_now))))
           = Next s2 /\
         Bridge.ctl s2 = Bridge.ExposeWait 0 None /\
         map (fun f => remotePort (pf f)) (Bridge.pfs s2) = HostAccessPorts req_now /\
         map (fun f => localPort (pf f)) (Bridge.pfs s2) = HostAccessPorts req_now) /\
  (exists hooks req' w' w2 s1 s2,
     exposeHostPorts "7c9e6679" lookup_ok new_ok mapped_ok ip_ok
       (caller_request [] [9090%Z]) [8080%Z] empty_world = ((hooks, None), req', w') /\
     PostReadies hooks = [PostReadyHook 0] /\
     invoke (PostReadyHook 0) req' w' = Next w2 /\
     bridges w2 !! 0%nat = Some s1 /\
     Bridge.run s1 (repeat (Bridge.Ctl None) 2) = Next s2 /\
     map (fun f => remotePort (pf f)) (Bridge.pfs s2) = [9090%Z] /\
     [9090%Z] <> [8080%Z]).
Proof.
  split; [|split].
  - intros pw G N M C req p p' w Hp Hp'.
    rewrite !exposeHostPorts_nonempty by assumption. reflexivity.
  - intros pw G N M C req p w hooks req' w' H.
    destruct (exposeHostPorts_success _ _ _ _ _ _ _ _ _ _ _ H)
      as (_ & opts & breq & dc & mapped & ip & _ & _ & _ & _ & _ & -> & -> & ->).
    exists (length (bridges w)).
    split; [reflexivity|]. split; [reflexivity|]. split; [reflexivity|].
    intros req_now. eapply post_ready_exposes. reflexivity.
  - do 6 eexists. split; [vm_compute; reflexivity|]. split; [reflexivity|].
    split; [vm_compute; reflexivity|]. split; [vm_compute; reflexivity|].
    split; [vm_compute; reflexivity|]. split; [vm_compute; reflexivity|].
    discriminate.
Qed.

Lemma post_ready_hook_reads_the_request_witness :
  [8080%Z] <> [] /\ [8080%Z; 9090%Z] <> [] /\
  exposeHostPorts "7c9e6679" lookup_ok new_ok mapped_ok ip_ok
    (caller_request ["net-a"] [9090%Z]) [8080%Z] empty_world =
  exposeHostPorts "7c9e6679" lookup_ok new_ok mapped_ok ip_ok
    (caller_request ["net-a"] [9090%Z]) [8080%Z; 9090%Z] empty_world.
Proof.
  split; [discriminate|]. split; [discriminate|].
  apply (proj1 post_ready_hook_reads_the_request); discriminate.
Defined.
End HookClaims.

Section OrchestratorExtras.
Import Orchestrator OrchestratorSpec.

(** X1. [exposeHostPorts] is all or nothing.  When it fails, it returns no
    hook, the caller's request as it was, and registers no controller; the
    error is "no ports to expose" or one of the three wrapped provisioning
    errors.  When it succeeds it returns exactly one post-ready and one
    pre-terminate hook, both for the controller it registered, and of the
    caller's request only the host-config modifier has changed. *)
Theorem exposeHostPorts_all_or_nothing pw G N M C req p w :
  forall hooks e req' w',
  exposeHostPorts pw G N M C req p w = ((hooks, e), req', w') ->
  match e with
  | Some err =>
      hooks = no_hooks /\ req' = req /\ bridges w' = bridges w /\
      (err = ErrNew "no ports to expose" \/
       (exists c, err = ErrWrap "failed to get the network" c) \/
       (exists c, err = ErrWrap "failed to create the SSH server" c) \/
       (exists c, err = ErrWrap "failed to get IP for the SSHD container" c))
  | None =>
      hooks = mkHooks [PostReadyHook (length (bridges w))]
                [PreTerminateHook (length (bridges w))] /\
      length (bridges w') = S (length (bridges w)) /\
      (exists f, req' = set_HostConfigModifier (Some f) req)
  end.
Proof.
  intros hooks e req' w' H. destruct e as [err|].
  - destruct p as [|p0 p].
    + injection H as <- <- <- <-. auto.
    + rewrite exposeHostPorts_nonempty in H by discriminate.
      unfold bridge_options in H.
      destruct (Nat.ltb 0 (length (Networks req))).
      * destruct (G (sshdFirstNetwork (Networks req))) as [nw|c].
        -- rewrite newSshdContainer_unfold in H.
           destruct (customize _ _) as [breq|c]; [|injection H as <- <- <- <-; eauto 8].
           destruct (N _ breq) as [dc|c]; [|injection H as <- <- <- <-; eauto 8].
           destruct (M dc sshPort) as [mapped|c]; [|injection H as <- <- <- <-; eauto 8].
           cbn [Bridge.container Bridge.sshd new_bridge] in H.
           destruct (C dc) as [ip|c]; [discriminate H|].
           injection H as <- <- <- <-. eauto 8.
        -- injection H as <- <- <- <-. eauto 8.
      * rewrite newSshdContainer_unfold in H.
        destruct (customize _ _) as [breq|c]; [|injection H as <- <- <- <-; eauto 8].
        destruct (N _ breq) as [dc|c]; [|injection H as <- <- <- <-; eauto 8].
        destruct (M dc sshPort) as [mapped|c]; [|injection H as <- <- <- <-; eauto 8].
        cbn [Bridge.container Bridge.sshd new_bridge] in H.
        destruct (C dc) as [ip|c]; [discriminate H|].
        injection H as <- <- <- <-. eauto 8.
  - destruct (exposeHostPorts_success _ _ _ _ _ _ _ _ _ _ _ H)
      as (_ & opts & breq & dc & mapped & ip & _ & _ & _ & _ & _ & -> & -> & ->).
    split; [reflexivity|]. split; [cbn; rewrite length_app; cbn; lia|]. eauto.
Qed.

Lemma exposeHostPorts_all_or_nothing_witness :
  exposeHostPorts "7c9e6679" (fun _ => Err (ErrNew "not found")) new_ok mapped_ok ip_ok
    (caller_request ["net-a"] [8080%Z]) [8080%Z] empty_world
  = ((no_hooks, Some (ErrWrap "failed to get the network" (ErrNew "not found"))),
     caller_request ["net-a"] [8080%Z], empty_world) /\
  bridges empty_world = bridges empty_world.
Proof.
  split; [reflexivity|].
  apply (exposeHostPorts_all_or_nothing "7c9e6679"
           (fun _ => Err (ErrNew "not found")) new_ok mapped_ok ip_ok
           (caller_request ["net-a"] [8080%Z]) [8080%Z] empty_world
           no_hooks (Some (ErrWrap "failed to get the network" (ErrNew "not found")))
           (caller_request ["net-a"] [8080%Z]) empty_world eq_refl).
Defined.

(** X2. A failure after the bridge container was made leaves it behind:
    when [New] succeeded but the mapped port or the container's address
    cannot be obtained, the call fails, the container is among those the
    process has made, and neither a hook nor a controller exists that
    would terminate it. *)
Theorem late_failure_leaves_container pw G N M C req p w opts breq dc :
  p <> [] ->
  bridge_options G (Networks req) = Ok opts ->
  customize opts (sshd_request pw) = Ok breq ->
  N (length (created w)) breq = Ok dc ->
  (exists e, M dc sshPort = Err e) \/ (exists e, C dc = Err e) ->
  exists err,
    exposeHostPorts pw G N M C req p w =
    ((no_hooks, Some err), req,
     mkWorld (created w ++ [(breq, dc)]) (bridges w)).
Proof.
  intros Hp E1 E2 E3 Hfail.
  rewrite exposeHostPorts_nonempty by exact Hp. rewrite E1.
  rewrite newSshdContainer_unfold, E2, E3.
  destruct (M dc sshPort) as [mapped|e] eqn:E4.
  - cbn [Bridge.container Bridge.sshd new_bridge].
    destruct Hfail as [[e He]|[e He]]; [discriminate He|].
    rewrite He. eauto.
  - eauto.
Qed.

Lemma late_failure_leaves_container_witness :
  exists err,
    exposeHostPorts "7c9e6679" lookup_ok new_ok mapped_ok
      (fun _ => Err (ErrNew "no such network")) (caller_request [] [8080%Z]) [8080%Z]
      empty_world =
    ((no_hooks, Some err), caller_request [] [8080%Z],
     mkWorld (created empty_world ++
                [(sshd_request "7c9e6679", mkDockerContainer "sshd-0")])
       (bridges empty_world)).
Proof.
  apply (late_failure_leaves_container "7c9e6679" lookup_ok new_ok mapped_ok
           (fun _ => Err (ErrNew "no such network")) (caller_request [] [8080%Z])
           [8080%Z] empty_world [] (sshd_request "7c9e6679")
           (mkDockerContainer "sshd-0")).
  - discriminate.
  - reflexivity.
  - reflexivity.
  - reflexivity.
  - right. eexists. reflexivity.
Defined.

(** X3. The bridge container is made from the fixed image, exposes only
    port 22, asks for no host ports and is started.  When the caller lists
    no network, no network is looked up and the bridge joins none; otherwise
    the bridge joins exactly the network the lookup of the chosen name
    returned, under the alias [host.testcontainers.internal]. *)
Theorem bridge_joins_looked_up_network :
  (forall pw G G' N M C req p w,
     Networks req = [] ->
     exposeHostPorts pw G N M C req p w = exposeHostPorts pw G' N M C req p w) /\
  (forall pw G N M C req p w hooks req' w',
     exposeHostPorts pw G N M C req p w = ((hooks, None), req', w') ->
     exists breq dc,
       created w' = created w ++ [(breq, dc)] /\
       Image breq = sshdImage /\ ExposedPorts breq = [sshPort] /\
       HostAccessPorts breq = [] /\ Started breq = true /\
       ((Networks req = [] /\ Networks breq = [] /\ NetworkAliases breq = None) \/
        (exists nw m,
           Networks req <> [] /\
           G (sshdFirstNetwork (Networks req)) = Ok nw /\
           Networks breq = [Name nw] /\
           NetworkAliases breq = Some m /\
           m !! Name nw = Some [HostInternal] /\
           forall k, k <> Name nw -> m !! k = None))).
Proof.
  split.
  - intros pw G G' N M C req p w Hn.
    destruct p as [|p0 p]; [reflexivity|].
    rewrite !exposeHostPorts_nonempty by discriminate.
    unfold bridge_options. rewrite Hn. reflexivity.
  - intros pw G N M C req p w hooks req' w' H.
    destruct (exposeHostPorts_success _ _ _ _ _ _ _ _ _ _ _ H)
      as (_ & opts & breq & dc & mapped & ip & E1 & E2 & E3 & E4 & E5 & _ & _ & ->).
    exists breq, dc. split; [reflexivity|].
    unfold bridge_options in E1.
    destruct (Networks req) as [|n0 rest] eqn:Hnets.
    + cbn in E1. injection E1 as <-. cbn in E2. injection E2 as <-.
      repeat split; auto.
    + cbn [length Nat.ltb Nat.leb] in E1.
      destruct (G (sshdFirstNetwork (n0 :: rest))) as [nw|c] eqn:EG; [|discriminate E1].
      injection E1 as <-. cbn in E2. injection E2 as <-.
      repeat split; auto. right. exists nw. eexists.
      split; [discriminate|]. split; [reflexivity|]. split; [reflexivity|].
      split; [reflexivity|]. split.
      * apply lookup_insert_eq.
      * intros k Hk. rewrite lookup_insert_ne by congruence. apply lookup_empty.
Qed.

Lemma bridge_joins_looked_up_network_witness :
  Networks (caller_request [] [8080%Z]) = [] /\
  exposeHostPorts "7c9e6679" lookup_ok new_ok mapped_ok ip_ok
    (caller_request [] [8080%Z]) [8080%Z] empty_world =
  exposeHostPorts "7c9e6679" (fun _ => Err (ErrNew "not found")) new_ok mapped_ok ip_ok
    (caller_request [] [8080%Z]) [8080%Z] empty_world.
Proof.
  split; [reflexivity|].
  apply (proj1 bridge_joins_looked_up_network). reflexivity.
Defined.
End OrchestratorExtras.

Section OrchestratorExtras2.
Import Orchestrator OrchestratorSpec.

(** X4. [newSshdContainer] hands back a container exactly when [New] made
    one.  If an option or [New] fails, nothing was made.  If only the port
    mapping fails, the container is returned together with the error, with
    no session configuration, no port and no forwarder, and [Terminate] on
    it closes nothing, cannot panic and returns what the container's
    termination returns. *)
Theorem newSshdContainer_outcomes pw N M opts w :
  match newSshdContainer pw N M opts w with
  | (Failed e, w') =>
      w' = w /\
      (customize opts (sshd_request pw) = Err e \/
       exists breq, customize opts (sshd_request pw) = Ok breq /\
                    N (length (created w)) breq = Err e)
  | (Partial sshd e, w') =>
      (exists breq,
         customize opts (sshd_request pw) = Ok breq /\
         N (length (created w)) breq = Ok (Bridge.container sshd) /\
         created w' = created w ++ [(breq, Bridge.container sshd)]) /\
      M (Bridge.container sshd) sshPort = Err e /\
      bridges w' = bridges w /\
      Bridge.sshConfig sshd = None /\ Bridge.port sshd = "" /\
      Bridge.portForwarders sshd = [] /\
      forall r ctx,
        Bridge.run (Bridge.mkSystem sshd ctx Bridge.Idle 0 [] [] [])
          [Bridge.Call_Terminate; Bridge.Ctl r; Bridge.Ctl r]
        = Next (Bridge.mkSystem sshd ctx (Bridge.TerminateReturned r) 0 [] []
                  [Bridge.EvContainerTerminate r])
  | (Ready sshd, w') =>
      (exists breq,
         customize opts (sshd_request pw) = Ok breq /\
         N (length (created w)) breq = Ok (Bridge.container sshd) /\
         created w' = created w ++ [(breq, Bridge.container sshd)]) /\
      M (Bridge.container sshd) sshPort = Ok (Bridge.port sshd) /\
      bridges w' = bridges w /\
      Bridge.sshConfig sshd =
        Some (mkClientConfig user InsecureIgnoreHostKey [Password pw] 30) /\
      Bridge.portForwarders sshd = []
  end.
Proof.
  rewrite newSshdContainer_unfold.
  destruct (customize opts (sshd_request pw)) as [breq|e] eqn:E1; [|auto].
  destruct (N (length (created w)) breq) as [dc|e] eqn:E2; [|eauto].
  destruct (M dc sshPort) as [mapped|e] eqn:E3; cbn.
  - repeat split; eauto.
  - repeat split; eauto.
Qed.

(** X5. The modifier installed on the caller's request does not replace
    the caller's own: it adds the entry [host.testcontainers.internal:ip],
    with the address of the bridge container, after the extra hosts the
    configuration already has, leaves the network mode alone, adds the
    bridge's network to the request's networks unless the network mode is
    that network, [none] or [host], and then runs the caller's modifier (or
    none, when the request had none) on the result. *)
Theorem installed_modifier_adds_host_alias pw G N M C req p w hooks req' w' :
  exposeHostPorts pw G N M C req p w = ((hooks, None), req', w') ->
  exists f breq dc ip,
    HostConfigModifier req' = Some f /\
    created w' = created w ++ [(breq, dc)] /\ C dc = Ok ip /\
    forall hostConfig networks,
      f hostConfig networks =
      original_modifier req
        (mkHostConfig (ExtraHosts hostConfig ++ [HostInternal +:+ ":" +:+ ip])
           (NetworkMode hostConfig))
        (if decide (NetworkMode hostConfig ∈
                      [sshdFirstNetwork (Networks req); "none"; "host"])
         then networks
         else networks ++ [sshdFirstNetwork (Networks req)]).
Proof.
  intros H. destruct (exposeHostPorts_success _ _ _ _ _ _ _ _ _ _ _ H)
    as (_ & opts & breq & dc & mapped & ip & _ & _ & _ & _ & E5 & _ & -> & ->).
  eexists. exists breq, dc, ip. split; [reflexivity|]. split; [reflexivity|].
  split; [exact E5|]. intros hc nets. unfold exposeHostModifier. cbn [NetworkMode].
  f_equal.
  set (mode := NetworkMode hc). set (net := sshdFirstNetwork (Networks req)).
  destruct (decide (mode ∈ [net; "none"; "host"])) as [Hin|Hout].
  - assert (E : existsb (String.eqb mode) [net; "none"; "host"] = true).
    { apply existsb_exists. exists mode. split; [|apply String.eqb_refl].
      apply list_elem_of_In. exact Hin. }
    rewrite E. reflexivity.
  - destruct (existsb (String.eqb mode) [net; "none"; "host"]) eqn:E; [|reflexivity].
    exfalso. apply Hout. apply existsb_exists in E.
    destruct E as (x & Hx & He). apply String.eqb_eq in He. subst x.
    apply list_elem_of_In. exact Hx.
Qed.

Lemma installed_modifier_adds_host_alias_witness :
  exists f breq dc ip,
    HostConfigModifier
      (set_HostConfigModifier
         (Some (exposeHostModifier "172.17.0.2" "net-a"
                  (original_modifier (caller_request ["net-a"] [8080%Z]))))
         (caller_request ["net-a"] [8080%Z])) = Some f /\
    created
      (mkWorld
         (created empty_world ++
            [(set_NetworkAliases (Some (<["net-a" := [HostInternal]]> ∅))
                (set_Networks ["net-a"] (sshd_request "7c9e6679")),
              mkDockerContainer "sshd-0")])
         (bridges empty_world ++
            [new_bridge (mkDockerContainer "sshd-0") "32768" "7c9e6679"]))
      = created empty_world ++ [(breq, dc)] /\
    ip_ok dc = Ok ip /\
    forall hostConfig networks,
      f hostConfig networks =
      original_modifier (caller_request ["net-a"] [8080%Z])
        (mkHostConfig (ExtraHosts hostConfig ++ [HostInternal +:+ ":" +:+ ip])
           (NetworkMode hostConfig))
        (if decide (NetworkMode hostConfig ∈
                      [sshdFirstNetwork (Networks (caller_request ["net-a"] [8080%Z]));
                       "none"; "host"])
         then networks
         else networks ++
              [sshdFirstNetwork (Networks (caller_request ["net-a"] [8080%Z]))]).
Proof.
  apply (installed_modifier_adds_host_alias "7c9e6679" lookup_ok new_ok mapped_ok ip_ok
           (caller_request ["net-a"] [8080%Z]) [8080%Z] empty_world
           (mkHooks [PostReadyHook 0] [PreTerminateHook 0])).
  reflexivity.
Defined.

Lemma customize_app opts1 : forall opts2 req,
  customize (opts1 ++ opts2) req =
  match customize opts1 req with
  | Ok r1 => customize opts2 r1
  | Err e => Err e
  end.
Proof.
  induction opts1 as [|o opts1 IH]; intros opts2 req; cbn; [reflexivity|].
  destruct (o req); [apply IH|reflexivity].
Qed.

(** X6. Options are applied in order and the first failure ends the loop:
    applying two lists one after the other is applying their
    concatenation, and after a failing option no later option is consulted.
    [withNetwork] never fails: it appends the network after those the
    request has, sets the aliases of that network, and keeps the aliases of
    every other network. *)
Theorem options_apply_in_order :
  (forall opts1 opts2 req,
     customize (opts1 ++ opts2) req =
     match customize opts1 req with
     | Ok r1 => customize opts2 r1
     | Err e => Err e
     end) /\
  (forall opts1 (opt : RequestCustomizer) opts2 opts2' req r1 e,
     customize opts1 req = Ok r1 -> opt r1 = Err e ->
     customize (opts1 ++ opt :: opts2) req = Err e /\
     customize (opts1 ++ opt :: opts2) req = customize (opts1 ++ opt :: opts2') req) /\
  (forall aliases name req,
     exists req' m,
       withNetwork aliases name req = Ok req' /\
       Networks req' = Networks req ++ [name] /\
       NetworkAliases req' = Some m /\
       m !! name = Some aliases /\
       (forall k, k <> name ->
          m !! k = match NetworkAliases req with Some m0 => m0 !! k | None => None end) /\
       Image req' = Image req /\ Env req' = Env req /\
       HostAccessPorts req' = HostAccessPorts req /\
       ExposedPorts req' = ExposedPorts req /\ Started req' = Started req /\
       HostConfigModifier req' = HostConfigModifier req).
Proof.
  split; [|split].
  - intros. apply customize_app.
  - intros opts1 opt opts2 opts2' req r1 e H1 H2.
    rewrite !customize_app, H1. cbn. rewrite H2. auto.
  - intros aliases name req. eexists. eexists. split; [reflexivity|].
    cbn. repeat split; try reflexivity.
    + apply lookup_insert_eq.
    + intros k Hk. rewrite lookup_insert_ne by congruence.
      destruct (NetworkAliases req); [reflexivity|apply lookup_empty].
Qed.

Lemma options_apply_in_order_witness :
  customize [withNetwork [HostInternal] "net-a"] (sshd_request "7c9e6679")
  = withNetwork [HostInternal] "net-a" (sshd_request "7c9e6679") /\
  customize
    ([withNetwork [HostInternal] "net-a"] ++
     (fun _ => Err (ErrNew "bad option")) :: [withNetwork [] "net-b"])
    (sshd_request "7c9e6679") = Err (ErrNew "bad option").
Proof.
  split; [reflexivity|].
  apply (proj1 (proj2 options_apply_in_order)
           [withNetwork [HostInternal] "net-a"] (fun _ => Err (ErrNew "bad option"))
           [withNetwork [] "net-b"] [] (sshd_request "7c9e6679")
           _ (ErrNew "bad option") eq_refl eq_refl).
Defined.
End OrchestratorExtras2.

Section ForwardReturnFacts.
Import Forwarder ForwarderInv ForwardReturn.

Lemma own_inv_step s a s' :
  own_inv s -> process_step s a = Next s' -> own_inv s'.
Proof.
  unfold own_inv, signalled. destruct s as [c f]; destruct a as [|a]; simpl.
  - intros H [= <-]. simpl. destruct (fpc f); intuition.
  - destruct (Forward_step c f a) as [f'| |] eqn:Hs; try discriminate.
    intros H [= <-]; simpl.
    destruct f as [p cc tc pc dl cl li ts]; simpl in *.
    step_cases Hs; simplify_eq;
      try match goal with H : is_closed ?t = true |- _ => destruct t; try discriminate end;
      intuition (try congruence).
Qed.

Lemma own_inv_run acts : forall s s',
  own_inv s -> run s acts = Next s' -> own_inv s'.
Proof.
  induction acts as [|a acts IH]; intros s s' Hi; simpl.
  - intros [= <-]. exact Hi.
  - destruct (process_step s a) as [s1| |] eqn:Hs; try discriminate.
    eauto using own_inv_step.
Qed.

(** X7. However [Forward] comes to return, it leaves neither the client nor
    the listener open: a client that was dialled has been closed, and so has
    a listener that was opened.  It returns nil only when a cancellation or
    a close was seen at the select, the nil outcome had been delivered, and
    both resources are closed. *)
Theorem Forward_returns_with_nothing_open addr cfg rp lp acts s ret :
  run (start addr cfg rp lp) acts = Next s ->
  fpc (fwd s) = FReturned ret ->
  client (fwd s) <> Open /\ listener (fwd s) <> Open /\
  (client (fwd s) = NoConn -> listener (fwd s) = NoConn /\ ret <> None) /\
  (ret = None ->
   signalled s /\ delivered (fwd s) = [None] /\
   client (fwd s) = Closed /\ listener (fwd s) = Closed).
Proof.
  intros Hrun Hpc.
  assert (Hown : own_inv s).
  { apply (own_inv_run acts (start addr cfg rp lp)); [|exact Hrun].
    unfold own_inv; simpl; auto. }
  pose proof (bind_inv_run _ _ _ _ _ _ Hrun) as Hb.
  unfold own_inv in Hown. unfold bind_inv in Hb. rewrite Hpc in Hown, Hb.
  destruct Hown as (Hc & Hl & Hn & Hnil).
  split; [exact Hc|]. split; [exact Hl|]. split.
  - intros Hno. split; [auto|]. intros ->.
    destruct (Hnil eq_refl) as (_ & Hcl & _). congruence.
  - intros ->. destruct (Hnil eq_refl) as (Hs & Hcl & Hli).
    destruct Hb as [[_ Hd]|(e & He & _)]; [|discriminate]. auto.
Qed.

Lemma Forward_returns_with_nothing_open_witness :
  exists s,
    run (start "localhost:32768" None 8080 8080)
      [PStep (ADial None); PStep (AListen None); PStep ASend; PCancel;
       PStep (ASelect CaseCtxDone); PStep (ACloseListener None);
       PStep (ACloseClient None); PStep (ACloseListener None);
       PStep (ACloseClient (Some (ErrNew "use of closed connection")))] = Next s /\
    fpc (fwd s) = FReturned None /\
    client (fwd s) <> Open /\ listener (fwd s) <> Open.
Proof.
  eexists. split; [vm_compute; reflexivity|]. split; [vm_compute; reflexivity|].
  assert (H : forall P Q R S : Prop, P /\ Q /\ R /\ S -> P /\ Q) by tauto.
  eapply H.
  apply (Forward_returns_with_nothing_open "localhost:32768" None 8080 8080
           [PStep (ADial None); PStep (AListen None); PStep ASend; PCancel;
            PStep (ASelect CaseCtxDone); PStep (ACloseListener None);
            PStep (ACloseClient None); PStep (ACloseListener None);
            PStep (ACloseClient (Some (ErrNew "use of closed connection")))]
           _ None).
  - vm_compute; reflexivity.
  - vm_compute; reflexivity.
Defined.
End ForwardReturnFacts.

Section AcceptLoopFacts.
Import Forwarder ForwarderInv AcceptLoop.

Lemma accepts_cons a acts :
  accepts (a :: acts) = ((if is_accept a then 1 else 0) + accepts acts)%nat.
Proof. unfold accepts. cbn [List.filter]. destruct (is_accept a); reflexivity. Qed.

Lemma returning_step ret c f a f' :
  returning ret (fpc f) -> Forward_step c f a = Next f' ->
  returning ret (fpc f') /\ length (tunnels f') = length (tunnels f) /\
  is_accept (PStep a) = false.
Proof.
  unfold returning. intros H Hs.
  destruct f as [p cc tc pc dl cl li ts]; simpl in *.
  destruct H as [ -> | [ -> | -> ] ]; step_cases Hs;
    rewrite ?length_insert; auto 6.
Qed.

Lemma returning_run ret acts : forall s s',
  returning ret (fpc (fwd s)) -> run s acts = Next s' ->
  returning ret (fpc (fwd s')) /\
  length (tunnels (fwd s')) = length (tunnels (fwd s)) /\ accepts acts = 0%nat.
Proof.
  induction acts as [|a acts IH]; intros s s' Hr; cbn [run].
  - intros [= <-]. auto.
  - destruct (process_step s a) as [s1| |] eqn:Hs; try discriminate.
    intros Hrun. rewrite accepts_cons. destruct s as [c f]. destruct a as [|a]; simpl in Hs.
    + injection Hs as Hs; subst s1. destruct (IH (mkProcess true f) _ Hr Hrun) as (? & ? & ->). auto.
    + destruct (Forward_step c f a) as [f'| |] eqn:Hf; try discriminate.
      injection Hs as Hs; subst s1. destruct (returning_step _ _ _ _ _ Hr Hf) as (Hr' & Hl & ->).
      destruct (IH (mkProcess c f') _ Hr' Hrun) as (? & Hl' & ->). simpl in *. split; [auto|].
      split; [congruence|reflexivity].
Qed.

Lemma accept_step c f a f' :
  fpc f = FAccept -> Forward_step c f a = Next f' ->
  client f' = client f /\ listener f' = listener f /\
  length (tunnels f') = (length (tunnels f) + (if is_accept (PStep a) then 1 else 0))%nat /\
  match a with
  | AAccept (Some e) =>
      fpc f' = FDeferListener (Some (ErrWrap "error accepting connection" e))
  | _ => fpc f' = FAccept
  end.
Proof.
  intros Hpc Hs. destruct f as [p cc tc pc dl cl li ts]; simpl in *. subst pc.
  step_cases Hs; rewrite ?length_insert, ?length_app; simpl; auto with lia.
Qed.

(** X8. Once the select has fallen through to the accept loop, only an
    error of [listener.Accept()] ends [Forward]: a cancellation of the
    context and the two statements of [Close] leave it in the loop, with
    its client and listener as they were.  Every accepted connection
    starts one relay, and when the loop ends the result wraps the first
    accept error. *)
Theorem accept_loop_ends_only_on_accept_error acts : forall s s',
  fpc (fwd s) = FAccept -> run s acts = Next s' ->
  length (tunnels (fwd s')) = (length (tunnels (fwd s)) + accepts acts)%nat /\
  match accept_error acts with
  | None =>
      fpc (fwd s') = FAccept /\
      client (fwd s') = client (fwd s) /\ listener (fwd s') = listener (fwd s)
  | Some e =>
      returning (Some (ErrWrap "error accepting connection" e)) (fpc (fwd s'))
  end.
Proof.
  induction acts as [|a acts IH]; intros s s' Hpc; cbn [run].
  - intros [= <-]. cbn. split; [unfold accepts; simpl; lia|auto].
  - destruct (process_step s a) as [s1| |] eqn:Hs; try discriminate.
    intros Hrun. rewrite accepts_cons. destruct s as [c f]. destruct a as [|a]; simpl in Hs.
    + injection Hs as Hs; subst s1. destruct (IH (mkProcess true f) _ Hpc Hrun) as [Hl Hm]. simpl in *.
      split; [lia|exact Hm].
    + destruct (Forward_step c f a) as [f'| |] eqn:Hf; try discriminate.
      injection Hs as Hs; subst s1. simpl in Hpc.
      destruct (accept_step _ _ _ _ Hpc Hf) as (Hc & Hli & Hlen & Hnext).
      assert (Hloop : fpc f' = FAccept ->
                length (tunnels (fwd s')) =
                  (length (tunnels f') + accepts acts)%nat /\
                match accept_error acts with
                | None =>
                    fpc (fwd s') = FAccept /\
                    client (fwd s') = client f' /\ listener (fwd s') = listener f'
                | Some e =>
                    returning (Some (ErrWrap "error accepting connection" e)) (fpc (fwd s'))
                end).
      { intros Hpc'. exact (IH (mkProcess c f') s' Hpc' Hrun). }
      cbn [fwd].
      destruct a as [r|r| |sc|r|r|[e|]|k ta| |];
        try (destruct (Hloop Hnext) as [Hl Hm]; cbn [accept_error];
             split; [lia|]; destruct (accept_error acts); [exact Hm|];
             destruct Hm as (? & ? & ?); repeat split; congruence).
      cbn [accept_error].
      destruct (returning_run (Some (ErrWrap "error accepting connection" e)) acts
                  (mkProcess c f') s') as (Hr & Hl & Ha);
        [left; exact Hnext|exact Hrun|].
      simpl in Hl. split; [lia|exact Hr].
Qed.

Lemma accept_loop_ends_only_on_accept_error_witness :
  exists s s',
    run (start "localhost:32768" None 8080 8080)
      [PStep (ADial None); PStep (AListen None); PStep ASend;
       PStep (ASelect CaseDefault)] = Next s /\
    run s [PStep (AAccept None); PCancel; PStep ACloseTerminate;
           PStep ACloseCreated; PStep (AAccept None)] = Next s' /\
    length (tunnels (fwd s')) = 2%nat /\ fpc (fwd s') = FAccept.
Proof.
  eexists. eexists. split; [vm_compute; reflexivity|].
  split; [vm_compute; reflexivity|].
  assert (H : forall (P Q R S : Prop), P /\ Q /\ R /\ S -> P /\ Q) by tauto.
  eapply H.
  apply (accept_loop_ends_only_on_accept_error
           [PStep (AAccept None); PCancel; PStep ACloseTerminate;
            PStep ACloseCreated; PStep (AAccept None)]
           (mkProcess false
              (mkForwarder (mkPortForwarder "localhost:32768" None 8080 8080)
                 ChOpen ChOpen FAccept [None] Open Open [])) _).
  - vm_compute; reflexivity.
  - vm_compute; reflexivity.
Defined.
End AcceptLoopFacts.

Section CloseCountFacts.
Import Forwarder ForwarderInv AcceptLoop.

Lemma closes_inv_step nl nc c f a f' :
  closes_inv nl nc (fpc f) -> Forward_step c f a = Next f' ->
  closes_inv (nl + (if is_listener_close (PStep a) then 1 else 0))
             (nc + (if is_client_close (PStep a) then 1 else 0)) (fpc f').
Proof.
  intros H Hs. destruct f as [p cc tc pc dl cl li ts]; simpl in *.
  step_cases Hs; unfold closes_inv in *; simpl in *;
    intuition (first [lia|discriminate|idtac]).
Qed.

Lemma listener_closes_cons a acts :
  listener_closes (a :: acts) =
  ((if is_listener_close a then 1 else 0) + listener_closes acts)%nat.
Proof.
  unfold listener_closes. cbn [List.filter]. destruct (is_listener_close a); reflexivity.
Qed.

Lemma client_closes_cons a acts :
  client_closes (a :: acts) =
  ((if is_client_close a then 1 else 0) + client_closes acts)%nat.
Proof.
  unfold client_closes. cbn [List.filter]. destruct (is_client_close a); reflexivity.
Qed.

Lemma closes_inv_run acts : forall nl nc s s',
  closes_inv nl nc (fpc (fwd s)) -> run s acts = Next s' ->
  closes_inv (nl + listener_closes acts) (nc + client_closes acts) (fpc (fwd s')).
Proof.
  induction acts as [|a acts IH]; intros nl nc s s' Hi; cbn [run].
  - intros [= <-]. unfold listener_closes, client_closes. simpl.
    rewrite !Nat.add_0_r. exact Hi.
  - destruct (process_step s a) as [s1| |] eqn:Hs; try discriminate.
    intros Hrun. rewrite listener_closes_cons, client_closes_cons, !Nat.add_assoc.
    apply (IH _ _ s1 s'); [|exact Hrun].
    destruct s as [c f]. destruct a as [|a]; simpl in Hs.
    + injection Hs as Hs; subst s1. simpl. rewrite !Nat.add_0_r. exact Hi.
    + destruct (Forward_step c f a) as [f'| |] eqn:Hf; try discriminate.
      injection Hs as Hs; subst s1. simpl. exact (closes_inv_step _ _ _ _ _ _ Hi Hf).
Qed.

(** X9. [Forward] closes the listener and the client at most twice each:
    once by lines 281-295 and once by the deferred calls of lines 265 and
    273.  A nil result is returned only after both were closed twice; and
    as long as [Forward] has neither left the select through a signal nor
    left the accept loop, nothing has been closed. *)
Theorem Forward_closes_twice_before_nil addr cfg rp lp acts s :
  run (start addr cfg rp lp) acts = Next s ->
  (listener_closes acts <= 2)%nat /\ (client_closes acts <= 2)%nat /\
  (forall ret, fpc (fwd s) = FReturned ret ->
     (listener_closes acts <= S (client_closes acts))%nat /\
     (client_closes acts <= S (listener_closes acts))%nat /\
     (ret = None -> listener_closes acts = 2%nat /\ client_closes acts = 2%nat)) /\
  (fpc (fwd s) = FSelect \/ fpc (fwd s) = FAccept \/ past_bind (fpc (fwd s)) = false ->
   listener_closes acts = 0%nat /\ client_closes acts = 0%nat).
Proof.
  intros Hrun.
  assert (H : closes_inv (0 + listener_closes acts) (0 + client_closes acts) (fpc (fwd s))).
  { apply (closes_inv_run acts 0 0 (start addr cfg rp lp)); [|exact Hrun].
    simpl. auto. }
  simpl in H. unfold closes_inv in H.
  destruct (fpc (fwd s)) eqn:Hpc; simpl;
    (split; [|split; [|split]]);
    try (intros ret' [= <-]); try lia;
    try (intros [?|[?|?]]; try discriminate);
    try (intuition (first [lia|congruence])).
Qed.

Lemma Forward_closes_twice_before_nil_witness :
  listener_closes
    [PStep (ADial None); PStep (AListen None); PStep ASend; PStep ACloseTerminate;
     PStep (ASelect CaseTerminate); PStep (ACloseListener None);
     PStep (ACloseClient None); PStep (ACloseListener None);
     PStep (ACloseClient None)] = 2%nat /\
  client_closes
    [PStep (ADial None); PStep (AListen None); PStep ASend; PStep ACloseTerminate;
     PStep (ASelect CaseTerminate); PStep (ACloseListener None);
     PStep (ACloseClient None); PStep (ACloseListener None);
     PStep (ACloseClient None)] = 2%nat.
Proof.
  refine (proj2 (proj2 (proj1 (proj2 (proj2
    (Forward_closes_twice_before_nil "localhost:32768" None 8080 8080
       [PStep (ADial None); PStep (AListen None); PStep ASend; PStep ACloseTerminate;
        PStep (ASelect CaseTerminate); PStep (ACloseListener None);
        PStep (ACloseClient None); PStep (ACloseListener None);
        PStep (ACloseClient None)]
       (mkProcess false
          (mkForwarder (mkPortForwarder "localhost:32768" None 8080 8080)
             ChOpen ChClosed (FReturned None) [None] Closed Closed [])) _)))
    None _)) _).
  - vm_compute; reflexivity.
  - vm_compute; reflexivity.
  - reflexivity.
Defined.
End CloseCountFacts.

Section CollectionFacts.
Import Forwarder Bridge BridgeInv Collection.

(** A forwarder of an earlier call that is still open. *)
Lemma bound_sends_nothing f : bound f -> sending f = None.
Proof. unfold bound, sending. destruct (fpc f); simpl; congruence. Qed.

Lemma blocked_step k s a s' f :
  waiting_at_most k (ctl s) ->
  pfs s !! k = Some f -> bound f -> connectionCreated f = ChOpen ->
  step s a = Next s' ->
  waiting_at_most k (ctl s') /\
  exists f', pfs s' !! k = Some f' /\ bound f' /\ connectionCreated f' = ChOpen.
Proof.
  intros Hw Hk Hb Ho Hs. destruct a as [ports| |r|i a|]; simpl in Hs.
  - destruct (ctl s); simpl in Hw, Hs; try contradiction; discriminate.
  - destruct (ctl s); simpl in Hw, Hs; try contradiction; discriminate.
  - unfold ctl_step in Hs. destruct (ctl s) as [|todo|i e| | | |] eqn:Hc;
      simpl in Hw; try contradiction.
    + destruct todo as [|q todo]; injection Hs as Hs; subst s'; simpl.
      * split; [lia|]. eauto.
      * split; [exact I|]. exists f. split; [|auto].
        apply lookup_app_l_Some. exact Hk.
    + destruct (pfs s !! i) as [g|] eqn:Hi.
      * destruct (receive (ctx_done s) g) as [[v g']| |] eqn:Hr; try discriminate.
        injection Hs as Hs; subst s'; simpl.
        destruct (decide (i = k)) as [->|Hne].
        -- exfalso. rewrite Hk in Hi. injection Hi as Hi; subst g.
           unfold receive in Hr. rewrite Ho, (bound_sends_nothing _ Hb) in Hr.
           discriminate.
        -- split; [lia|]. exists f. unfold pfs in *; simpl.
           rewrite list_lookup_insert_ne by exact Hne. auto.
      * exfalso. apply lookup_ge_None in Hi. apply lookup_lt_Some in Hk. lia.
  - destruct (go_step_inv _ _ _ _ Hs) as (g & g' & Hi & Hf & -> & Hn1 & Hn2 & Hn3).
    simpl. split; [exact Hw|]. unfold pfs in *; simpl.
    destruct (decide (i = k)) as [->|Hne].
    + rewrite Hk in Hi. injection Hi as Hi; subst g. exists g'.
      rewrite list_lookup_insert_eq by (eapply lookup_lt_Some; exact Hk).
      split; [reflexivity|]. split; [eapply bound_step; eauto|].
      destruct (go_local _ _ _ _ Hf Hn1 Hn2 Hn3) as (_ & -> & _). exact Ho.
    + exists f. rewrite list_lookup_insert_ne by exact Hne. auto.
  - injection Hs as Hs; subst s'. simpl. eauto.
Qed.

Lemma blocked_run k acts : forall s s' f,
  waiting_at_most k (ctl s) ->
  pfs s !! k = Some f -> bound f -> connectionCreated f = ChOpen ->
  Bridge.run s acts = Next s' ->
  waiting_at_most k (ctl s').
Proof.
  induction acts as [|a acts IH]; intros s s' f Hw Hk Hb Ho; cbn [Bridge.run].
  - intros [= <-]. exact Hw.
  - destruct (step s a) as [s1| |] eqn:Hs; try discriminate. intros Hrun.
    destruct (blocked_step _ _ _ _ _ Hw Hk Hb Ho Hs) as (Hw' & f' & Hk' & Hb' & Ho').
    exact (IH _ _ _ Hw' Hk' Hb' Ho' Hrun).
Qed.

(** X10. The second loop of [exposeHostPort] receives from every forwarder
    of the collection, those of earlier calls included.  A forwarder of an
    earlier call has handed over its one outcome already; while its channel
    is open nothing more arrives on it.  So a further call on a controller
    that holds such a forwarder at index [k] never returns: it stays in its
    loops and never receives beyond index [k]. *)
Theorem exposeHostPort_again_never_returns c p cfg acts0 s0 k f ports acts s :
  Bridge.run (fresh c p cfg) acts0 = Next s0 ->
  callable (ctl s0) = true ->
  pfs s0 !! k = Some f -> connectionCreated f = ChOpen ->
  Bridge.run s0 (Call_exposeHostPort ports :: acts) = Next s ->
  waiting_at_most k (ctl s) /\ (forall e, ctl s <> ExposeReturned e) /\
  callable (ctl s) = false.
Proof.
  intros Hrun0 Hcall Hk Ho Hrun.
  pose proof (sys_inv_run _ _ _ (sys_inv_fresh c p cfg) Hrun0) as Hinv.
  pose proof (callable_bound _ Hinv Hcall) as Hbound.
  assert (Hb : bound f) by (eapply Forall_lookup_1; eauto).
  cbn [Bridge.run step] in Hrun. rewrite Hcall in Hrun.
  assert (Hw : waiting_at_most k (ctl s)).
  { eapply (blocked_run k acts _ s f); [| | | |exact Hrun]; simpl; auto. }
  split; [exact Hw|]. destruct (ctl s); simpl in Hw; try contradiction;
    (split; [intros e0; discriminate|reflexivity]).
Qed.

Lemma exposeHostPort_again_never_returns_witness :
  exists s0 s,
    Bridge.run (fresh (mkDockerContainer "sshd-0") "32768" None)
      (expose_schedule [8080%Z] [Binds]) = Next s0 /\
    Bridge.run s0 [Call_exposeHostPort [9090%Z]; Ctl None; Ctl None;
                   Go 1 (ADial None); Go 1 (AListen None)] = Next s /\
    waiting_at_most 0 (ctl s) /\ Bridge.step s (Ctl None) = Stuck.
Proof.
  eexists. eexists. split; [vm_compute; reflexivity|].
  split; [vm_compute; reflexivity|]. split; [|vm_compute; reflexivity].
  refine (proj1 (exposeHostPort_again_never_returns
            (mkDockerContainer "sshd-0") "32768" None
            (expose_schedule [8080%Z] [Binds]) _ 0 _ [9090%Z]
            [Ctl None; Ctl None; Go 1 (ADial None); Go 1 (AListen None)] _
            _ _ _ _ _)).
  - vm_compute; reflexivity.
  - vm_compute; reflexivity.
  - vm_compute; reflexivity.
  - vm_compute; reflexivity.
  - vm_compute; reflexivity.
Defined.
End CollectionFacts.

Section CollectionFacts2.
Import Forwarder Bridge BridgeInv Collection.

Lemma grows_insert s i f f' (P : system -> system) :
  pfs s !! i = Some f -> pf f' = pf f ->
  (forall t, sshd (P t) = sshd t) ->
  (container (sshd (P (set_pfs (<[i := f']> (pfs s)) s))) = container (sshd s) /\
   port (sshd (P (set_pfs (<[i := f']> (pfs s)) s))) = port (sshd s) /\
   Bridge.sshConfig (sshd (P (set_pfs (<[i := f']> (pfs s)) s))) =
     Bridge.sshConfig (sshd s)) /\
  structs (P (set_pfs (<[i := f']> (pfs s)) s)) = structs s ++ [].
Proof.
  intros Hi Hp HP. unfold structs, pfs in *. rewrite !HP. simpl.
  rewrite app_nil_r. split; [auto|]. apply (structs_insert s i f f'); assumption.
Qed.

Lemma grows_step s a s' :
  step s a = Next s' ->
  (container (sshd s') = container (sshd s) /\ port (sshd s') = port (sshd s) /\
   Bridge.sshConfig (sshd s') = Bridge.sshConfig (sshd s)) /\
  exists more, structs s' = structs s ++ more /\ Forall (made_by s) more.
Proof.
  intros Hs. destruct a as [ports| |r|i a|]; simpl in Hs.
  - destruct (callable (ctl s)); [|discriminate]. injection Hs as Hs; subst s'.
    split; [repeat split|]. exists []. rewrite app_nil_r. auto.
  - destruct (callable (ctl s)); [|discriminate]. injection Hs as Hs; subst s'.
    split; [repeat split|]. exists []. rewrite app_nil_r. auto.
  - unfold ctl_step in Hs. destruct (ctl s) as [|todo|i e| |i half| |] eqn:Hc;
      try discriminate.
    + destruct todo as [|q todo]; injection Hs as Hs; subst s'.
      * split; [repeat split|]. exists []. rewrite app_nil_r. auto.
      * split; [repeat split|].
        exists [mkPortForwarder ("localhost:" +:+ port (sshd s))
                  (Bridge.sshConfig (sshd s)) q q].
        split; [|repeat constructor].
        unfold structs, spawn, pfs. simpl. rewrite map_app. reflexivity.
    + destruct (pfs s !! i) as [g|] eqn:Hi.
      * destruct (receive (ctx_done s) g) as [[v g']| |] eqn:Hr; try discriminate.
        injection Hs as Hs; subst s'.
        assert (Hp : pf g' = pf g).
        { destruct (receive_inv _ _ _ _ Hr) as [(_ & _ & ->)|(_ & _ & Hf & _)];
            [reflexivity|exact (step_pf _ _ _ _ Hf)]. }
        destruct (grows_insert s i g g'
                    (fun t => set_ctl (ExposeWait (S i) (errors_Join [e; v]))
                                (set_received (received s ++ [v]) t)) Hi Hp)
          as [H1 H2]; [reflexivity|].
        split; [exact H1|]. exists []. auto.
      * injection Hs as Hs; subst s'.
        split; [repeat split|]. exists []. rewrite app_nil_r. auto.
    + destruct (pfs s !! i) as [g|] eqn:Hi.
      * destruct (Forward_step (ctx_done s) g
                    (if half then ACloseCreated else ACloseTerminate))
          as [g'| |] eqn:Hf; try discriminate.
        injection Hs as Hs; subst s'. pose proof (step_pf _ _ _ _ Hf) as Hp.
        destruct half.
        -- destruct (grows_insert s i g g'
                       (fun t => set_ctl (TerminateLoop (S i) false)
                                   (set_trace (trace s ++ [EvClosed i]) t)) Hi Hp)
             as [H1 H2]; [reflexivity|].
           split; [exact H1|]. exists []. auto.
        -- destruct (grows_insert s i g g'
                       (fun t => set_ctl (TerminateLoop i true) t) Hi Hp)
             as [H1 H2]; [reflexivity|].
           split; [exact H1|]. exists []. auto.
      * injection Hs as Hs; subst s'.
        split; [repeat split|]. exists []. rewrite app_nil_r. auto.
    + injection Hs as Hs; subst s'.
      split; [repeat split|]. exists []. rewrite app_nil_r. auto.
  - destruct (go_step_inv _ _ _ _ Hs) as (g & g' & Hi & Hf & -> & _).
    destruct (grows_insert s i g g' (fun t => t) Hi (step_pf _ _ _ _ Hf))
      as [H1 H2]; [reflexivity|].
    split; [exact H1|]. exists []. auto.
  - injection Hs as Hs; subst s'.
    split; [repeat split|]. exists []. rewrite app_nil_r. auto.
Qed.

(** X11. No statement of the controller, of [Forward] or of a relay removes
    a forwarder from the collection or changes the address, the session
    configuration or the ports of one: over any execution the collection
    only grows at its end ([Terminate] leaves the closed forwarders in it),
    the container, the mapped port and the session configuration of the
    controller stay what they were, and every forwarder added dials
    [localhost] at the controller's mapped port with the controller's
    configuration and forwards a port to the same port number. *)
Theorem collection_only_grows acts : forall s s',
  Bridge.run s acts = Next s' ->
  container (sshd s') = container (sshd s) /\ port (sshd s') = port (sshd s) /\
  Bridge.sshConfig (sshd s') = Bridge.sshConfig (sshd s) /\
  exists more,
    map pf (pfs s') = map pf (pfs s) ++ more /\
    Forall (fun p => sshDAddr p = "localhost:" +:+ port (sshd s) /\
                     Forwarder.sshConfig p = Bridge.sshConfig (sshd s) /\
                     localPort p = remotePort p) more.
Proof.
  induction acts as [|a acts IH]; intros s s'; cbn [Bridge.run].
  - intros [= <-]. repeat split. exists []. rewrite app_nil_r. auto.
  - destruct (step s a) as [s1| |] eqn:Hs; try discriminate. intros Hrun.
    destruct (grows_step _ _ _ Hs) as ((C1 & C2 & C3) & m1 & E1 & F1).
    destruct (IH _ _ Hrun) as (D1 & D2 & D3 & m2 & E2 & F2).
    split; [congruence|]. split; [congruence|]. split; [congruence|].
    exists (m1 ++ m2). unfold structs in E1. rewrite E2, E1, app_assoc.
    split; [reflexivity|]. apply Forall_app. split; [exact F1|].
    rewrite C2, C3 in F2. exact F2.
Qed.

Lemma collection_only_grows_witness :
  exists s more,
    Bridge.run (fresh (mkDockerContainer "sshd-0") "32768" None)
      (expose_schedule [8080%Z; 5432%Z] [Binds; DialFails (ErrNew "refused")] ++
       Call_Terminate :: repeat (Ctl None) 6) = Next s /\
    map pf (pfs s) = [] ++ more /\
    Forall (fun p => sshDAddr p = "localhost:32768" /\
                     Forwarder.sshConfig p = None /\
                     localPort p = remotePort p) more.
Proof.
  pose (fin :=
          match Bridge.run (fresh (mkDockerContainer "sshd-0") "32768" None)
                  (expose_schedule [8080%Z; 5432%Z]
                     [Binds; DialFails (ErrNew "refused")] ++
                   Call_Terminate :: repeat (Ctl None) 6) with
          | Next s => s
          | _ => fresh (mkDockerContainer "sshd-0") "32768" None
          end).
  assert (R : Bridge.run (fresh (mkDockerContainer "sshd-0") "32768" None)
                (expose_schedule [8080%Z; 5432%Z]
                   [Binds; DialFails (ErrNew "refused")] ++
                 Call_Terminate :: repeat (Ctl None) 6) = Next fin)
    by (vm_compute; reflexivity).
  destruct (collection_only_grows _ _ fin R) as (_ & _ & _ & more & E & F).
  exists fin, more. split; [exact R|]. split; [exact E|exact F].
Defined.
End CollectionFacts2.

Section TunnelDoneFacts.
Import Tunnel TunnelInv TunnelDone.

Lemma unspawned_step t a t' :
  unspawned t -> runTunnel_step t a = Some t' -> unspawned t'.
Proof.
  destruct t as [p ci co dn r l]. unfold unspawned; simpl.
  intros (-> & -> & -> & [ -> | -> ]) Hs;
    destruct a as [[e|]| |d r0|d]; try destruct d;
    unfold runTunnel_step in Hs; simpl in Hs; try discriminate;
    injection Hs as Hs; subst t'; simpl; auto.
Qed.

Lemma unspawned_run acts : forall t t',
  unspawned t -> Tunnel.run t acts = Some t' -> unspawned t'.
Proof.
  induction acts as [|a acts IH]; intros t t' Hu; simpl.
  - intros [= <-]. exact Hu.
  - destruct (runTunnel_step t a) as [t1|] eqn:Hs; try discriminate.
    eauto using unspawned_step.
Qed.

Lemma accepted_reaches acts t :
  Tunnel.run accepted acts = Some t ->
  t = accepted \/ unspawned t \/ relaying t.
Proof.
  destruct acts as [|a acts]; simpl.
  - intros [= <-]. auto.
  - destruct a as [[e|]| |d r0|d]; try destruct d; simpl; try discriminate.
    + intros H. right; left. eapply unspawned_run; [|exact H].
      unfold unspawned; simpl; auto.
    + intros H. right; right. eapply relaying_run; [|exact H].
      unfold relaying; simpl; auto.
Qed.

Lemma signal_runs t d :
  relaying t -> get_copy d t = CpSignal ->
  exists t', runTunnel_step t (TSignal d) = Some t' /\
    get_copy d t' = CpExit /\ done t' = S (done t) /\ pc t' = pc t /\
    remote t' = remote t /\ local t' = local t.
Proof.
  intros Hr Hg.
  assert (Hd : (done t <= 1)%nat).
  { destruct t as [p ci co dn r l]; destruct d; simpl in Hg; subst;
      unfold relaying, exits, spawned in Hr; simpl in Hr;
      destruct p; try contradiction; destruct_and?; simpl in *;
      try discriminate; repeat case_match; lia. }
  unfold runTunnel_step. rewrite Hg.
  destruct (done t) as [|[|n]] eqn:Hdn; [| |lia];
    (eexists; split; [destruct (pc t); reflexivity|]);
    destruct t as [p ci co dn r l]; destruct d; simpl in *; subst; auto.
Qed.

(** X12. The channel [done] has room for both copying goroutines: whenever
    one of them has finished its [io.Copy] and is about to send, the send
    goes through at once, whatever the other goroutine and [runTunnel]
    itself have done, also after [runTunnel] has returned and nobody
    receives any more.  So no copying goroutine stays blocked on [done]. *)
Theorem done_never_blocks acts t d :
  Tunnel.run accepted acts = Some t ->
  get_copy d t = CpSignal ->
  exists t', runTunnel_step t (TSignal d) = Some t' /\
    get_copy d t' = CpExit /\ done t' = S (done t) /\ pc t' = pc t /\
    remote t' = remote t /\ local t' = local t.
Proof.
  intros Hrun Hg. destruct (accepted_reaches _ _ Hrun) as [->|[Hu|Hr]].
  - destruct d; discriminate.
  - destruct Hu as (Hi & Ho & _). destruct d; simpl in Hg; congruence.
  - exact (signal_runs t d Hr Hg).
Qed.

Lemma done_never_blocks_witness :
  exists t t',
    Tunnel.run accepted
      [TDialLocal None; TRun; TRun; TCopyEnds In_ None; TCopyEnds Out_ None;
       TSignal In_; TRun; TRun; TRun] = Some t /\
    pc t = RtReturned /\
    runTunnel_step t (TSignal Out_) = Some t' /\ get_copy Out_ t' = CpExit.
Proof.
  pose (t := mkTunnel RtReturned CpExit CpSignal 0 Closed Closed).
  destruct (done_never_blocks
              [TDialLocal None; TRun; TRun; TCopyEnds In_ None; TCopyEnds Out_ None;
               TSignal In_; TRun; TRun; TRun] t Out_ eq_refl eq_refl)
    as (t' & Hs & Hg & _).
  exists t, t'. split; [reflexivity|]. split; [reflexivity|]. split; [exact Hs|exact Hg].
Defined.
End TunnelDoneFacts.

Section TerminateFrame.
Import Forwarder Bridge BridgeInv Collection.

Lemma insert_middle (pre post : list forwarder) f g :
  <[length pre := g]> (pre ++ f :: post) = pre ++ g :: post.
Proof.
  rewrite insert_app_r_alt by lia. rewrite Nat.sub_diag. reflexivity.
Qed.

Lemma close_step_first c p cfg pre f post ctx b rq rc tr r :
  terminateChan f = ChOpen ->
  step (mkSystem (mkSshd c p cfg (pre ++ f :: post)) ctx
          (TerminateLoop (length pre) false) b rq rc tr) (Ctl r) =
  Next (mkSystem (mkSshd c p cfg (pre ++ set_terminateChan ChClosed f :: post)) ctx
          (TerminateLoop (length pre) true) b rq rc tr).
Proof.
  intros Ho. cbn [step]. unfold ctl_step, pfs. cbn [ctl sshd portForwarders ctx_done].
  rewrite list_lookup_middle by reflexivity.
  rewrite (close_terminate_open ctx f Ho).
  unfold set_ctl, set_pfs, pfs. cbn. rewrite insert_middle. reflexivity.
Qed.

Lemma close_step_second c p cfg pre f post ctx b rq rc tr r :
  connectionCreated f = ChOpen ->
  step (mkSystem (mkSshd c p cfg (pre ++ f :: post)) ctx
          (TerminateLoop (length pre) true) b rq rc tr) (Ctl r) =
  Next (mkSystem (mkSshd c p cfg (pre ++ set_connectionCreated ChClosed f :: post)) ctx
          (TerminateLoop (S (length pre)) false) b rq rc
          (tr ++ [EvClosed (length pre)])).
Proof.
  intros Ho. cbn [step]. unfold ctl_step, pfs. cbn [ctl sshd portForwarders ctx_done].
  rewrite list_lookup_middle by reflexivity.
  rewrite (close_created_open ctx f Ho).
  unfold set_ctl, set_trace, set_pfs, pfs. cbn. rewrite insert_middle. reflexivity.
Qed.

Lemma close_loop c p cfg ctx b rq rc r post : forall pre tr,
  Forall both_open post ->
  Bridge.run (mkSystem (mkSshd c p cfg (pre ++ post)) ctx
                (TerminateLoop (length pre) false) b rq rc tr)
    (repeat (Ctl r) (2 * length post + 2)) =
  Next (mkSystem (mkSshd c p cfg (pre ++ map closed_down post)) ctx
          (TerminateReturned r) b rq rc
          (tr ++ map EvClosed (seq (length pre) (length post)) ++
           [EvContainerTerminate r])).
Proof.
  induction post as [|f post IH]; intros pre tr Hopen.
  - cbn [length Nat.mul Nat.add repeat Bridge.run step].
    unfold ctl_step at 1, pfs. cbn [ctl sshd portForwarders].
    rewrite (lookup_ge_None_2 (pre ++ []) (length pre))
      by (rewrite length_app; simpl; lia).
    reflexivity.
  - apply Forall_cons in Hopen. destruct Hopen as [[Hc Ht] Hopen].
    replace (2 * length (f :: post) + 2)%nat with (S (S (2 * length post + 2)))
      by (simpl; lia).
    cbn [repeat Bridge.run].
    rewrite (close_step_first _ _ _ _ _ _ _ _ _ _ _ _ Ht).
    rewrite (close_step_second c p cfg pre (set_terminateChan ChClosed f) post
               ctx b rq rc tr r) by (destruct f; exact Hc).
    specialize (IH (pre ++ [closed_down f]) (tr ++ [EvClosed (length pre)]) Hopen).
    rewrite length_app, Nat.add_1_r in IH. rewrite <- !app_assoc in IH.
    cbn [app] in IH. unfold closed_down in IH at 1.
    rewrite IH. cbn [map length seq]. rewrite <- ?app_assoc. reflexivity.
Qed.

(** X13. [Terminate] touches nothing but the two channels of each
    forwarder: run on a controller whose forwarders are all open, it
    returns the result of the container's termination and leaves every
    forwarder where its [Forward] was, with its client, its listener, its
    relays and its delivered outcome as they were.  It neither closes a
    listener nor waits for [Forward] to see the close. *)
Theorem Terminate_only_closes_channels c p cfg l ctx pc0 b rq rc tr r :
  callable pc0 = true -> Forall both_open l ->
  Bridge.run (mkSystem (mkSshd c p cfg l) ctx pc0 b rq rc tr)
    (Call_Terminate :: repeat (Ctl r) (2 * length l + 2)) =
  Next (mkSystem (mkSshd c p cfg (map closed_down l)) ctx (TerminateReturned r) b rq rc
          (tr ++ map EvClosed (seq 0 (length l)) ++ [EvContainerTerminate r])) /\
  Forall2 (fun f g =>
             fpc g = fpc f /\ client g = client f /\ listener g = listener f /\
             tunnels g = tunnels f /\ delivered g = delivered f /\ pf g = pf f /\
             both_closed g) l (map closed_down l).
Proof.
  intros Hcall Hopen. split.
  - cbn [Bridge.run step ctl]. rewrite Hcall. unfold set_ctl. cbn.
    exact (close_loop c p cfg ctx b rq rc r l [] tr Hopen).
  - clear. induction l as [|f l IH]; cbn [map]; constructor; [|exact IH].
    destruct f; cbn. unfold both_closed. cbn. repeat split.
Qed.

Lemma Terminate_only_closes_channels_witness :
  exists s,
    Bridge.run
      (mkSystem
         (mkSshd (mkDockerContainer "sshd-0") "32768" None
            [mkForwarder (mkPortForwarder "localhost:32768" None 8080 8080)
               ChOpen ChOpen FAccept [None] Open Open [Tunnel.accepted]])
         false (ExposeReturned None) 0 [8080%Z] [None] [])
      (Call_Terminate :: repeat (Ctl None) 4) = Next s /\
    map fpc (pfs s) = [FAccept] /\ map listener (pfs s) = [Open].
Proof.
  eexists. split.
  - apply (Terminate_only_closes_channels (mkDockerContainer "sshd-0") "32768" None
             [mkForwarder (mkPortForwarder "localhost:32768" None 8080 8080)
                ChOpen ChOpen FAccept [None] Open Open [Tunnel.accepted]]
             false (ExposeReturned None) 0 [8080%Z] [None] [] None).
    + reflexivity.
    + repeat constructor.
  - split; reflexivity.
Defined.
End TerminateFrame.
